(** * clickstream_preprocess.py: the capped thinning pass and its outputs

    A shallow embedding of [src/clickstream_preprocess.py]: the two string
    encoders, the counter-based sampler [reservoir_extend] and the single
    pass [preprocess] that builds the two client lists and the relative
    frequency table.

    Conventions.
    - A Python [str] is a [string]; one [ascii] stands for one character
      (a code point below 256).
    - A Python [int] is a [Z].  [int(str)] is modelled on these
      characters; the limit CPython puts on the number of digits is left
      out.
    - [collections.Counter] is a [gmap string Z] read through [getitem],
      which yields [0] for a missing key without inserting it.  The order
      of insertion of a [dict] is not kept.
    - A Python [float] is represented by the rational it denotes.  The two
      float operations of the program are a true division of two integers,
      which CPython rounds correctly (to nearest, ties to even), and a
      comparison.
    - The generator [random.Random] is an interface ([PRNG]); a draw of
      [rng.random()] is the integer [a] with [0 <= a < 2^53] such that the
      returned float is [a / 2^53].  [MT19937] is the generator CPython
      provides.
    - Widths and repetition counts are integers of any size here; CPython
      refuses with [OverflowError] a width of [ljust] or a count of
      [list * int] outside the range of a machine word.  Statements that
      depend on this are made for widths within that range or for runs
      that complete.
    - Exceptions are values of [exn]; a computation returns [result].
    - [preprocess] takes the rows the [csv] reader yields for [path] and
      returns the three objects it pickles; the progress lines it prints
      and the limits of memory are left out. *)

From Stdlib Require Import ZArith QArith Qabs Lia Ascii String.
From stdpp Require Import gmap strings list fin_maps.
From Equations Require Import Equations.

Local Open Scope Z_scope.

(** ** Exceptions and results *)

Inductive exn : Set :=
| ValueError
| ZeroDivisionError
| OverflowError.

Inductive result (A : Type) : Type :=
| Ok (a : A)
| Raise (e : exn).

Arguments Ok {A} a.
Arguments Raise {A} e.

(** Sequencing: an exception raised by a statement ends the block.  The
    instances give [x ← m; k] its meaning on [result]. *)
#[global] Instance result_ret : MRet result := fun A a => Ok a.

#[global] Instance result_bind : MBind result := fun A B f m =>
  match m with
  | Ok a => f a
  | Raise e => Raise e
  end.

(** ** Strings *)

(** [c * n] for a one-character string [c]. *)
Fixpoint string_rep (n : nat) (c : ascii) : string :=
  match n with
  | O => EmptyString
  | S n' => String c (string_rep n' c)
  end.

(** [s[:L]]: a negative bound counts from the end of the string. *)
Definition slice_to (s : string) (L : Z) : string :=
  let stop := if L <? 0 then Z.of_nat (String.length s) + L else L in
  substring 0 (Z.to_nat stop) s.

(** [s.ljust(L, fill)]: nothing is added when [L <= len(s)]. *)
Definition ljust (s : string) (L : Z) (fill : ascii) : string :=
  s +:+ string_rep (Z.to_nat (L - Z.of_nat (String.length s))) fill.

(** [truncate_or_pad(s, L)] is [(s[:L]).ljust(L, '$')]. *)
Definition truncate_or_pad (s : string) (L : Z) : string :=
  ljust (slice_to s L) L "$"%char.

(** [add_end_symbol(s)] is [s + '$']. *)
Definition add_end_symbol (s : string) : string :=
  s +:+ "$".

(** ** [int(str)] *)

(** Whitespace stripped by [int]: the ASCII blanks, and NEL and the
    no-break space among the code points below 256. *)
Definition is_space (c : ascii) : bool :=
  bool_decide (nat_of_ascii c ∈ [9; 10; 11; 12; 13; 32; 133; 160]%nat).

Definition digit_value (c : ascii) : option Z :=
  let n := Z.of_nat (nat_of_ascii c) in
  if (48 <=? n) && (n <=? 57) then Some (n - 48) else None.

Fixpoint skip_spaces (s : string) : string :=
  match s with
  | String c s' => if is_space c then skip_spaces s' else s
  | EmptyString => EmptyString
  end.

(** The digits after the first one: a single underscore may separate two
    digits; only blanks may follow the last digit. *)
Fixpoint int_digits (acc : Z) (s : string) : option Z :=
  match s with
  | EmptyString => Some acc
  | String c s' =>
      match digit_value c with
      | Some d => int_digits (10 * acc + d) s'
      | None =>
          if Ascii.eqb c "_" then
            match s' with
            | String c' s'' =>
                match digit_value c' with
                | Some d => int_digits (10 * acc + d) s''
                | None => None
                end
            | EmptyString => None
            end
          else
            match skip_spaces s with
            | EmptyString => Some acc
            | String _ _ => None
            end
      end
  end.

Definition int_unsigned (s : string) : option Z :=
  match s with
  | String c s' =>
      match digit_value c with
      | Some d => int_digits d s'
      | None => None
      end
  | EmptyString => None
  end.

(** [int(s)] in base ten; [ValueError] when [s] is not an integer literal. *)
Definition py_int (s : string) : result Z :=
  let parsed :=
    match skip_spaces s with
    | String "+" s' => int_unsigned s'
    | String "-" s' => Z.opp <$> int_unsigned s'
    | s' => int_unsigned s'
    end in
  match parsed with
  | Some n => Ok n
  | None => Raise ValueError
  end.

(** ** Floats *)

(** [n / d] rounded to the nearest integer, ties to the even one
    ([0 <= n], [0 < d]). *)
Definition round_half_even (n d : Z) : Z :=
  let q := n / d in
  let r := n mod d in
  if 2 * r <? d then q
  else if d <? 2 * r then q + 1
  else if Z.even q then q else q + 1.

(** The rational [m * 2^e]. *)
Definition ldexp (m e : Z) : Q :=
  if 0 <=? e then inject_Z (m * 2 ^ e) else m # Z.to_pos (2 ^ (- e)).

(** [a / b] on two integers: the double nearest to the exact quotient.
    The significand has 53 bits, except below [2^-1022] where the exponent
    stays at [-1074]; a quotient that rounds to [2^1024] or more raises
    [OverflowError]. *)
Definition float_div (a b : Z) : result Q :=
  if b =? 0 then Raise ZeroDivisionError
  else if a =? 0 then Ok 0%Q
  else
    let n := Z.abs a in
    let d := Z.abs b in
    let scaled e := (n * 2 ^ Z.max 0 (- e), d * 2 ^ Z.max 0 e) in
    let e0 := Z.log2 n - Z.log2 d - 53 in
    let e1 := if 2 ^ 53 * snd (scaled e0) <=? fst (scaled e0)
              then e0 + 1 else e0 in
    let e := Z.max e1 (-1074) in
    let m := round_half_even (fst (scaled e)) (snd (scaled e)) in
    if 2 ^ 1024 <=? m * 2 ^ e then Raise OverflowError
    else Ok (ldexp (Z.sgn a * Z.sgn b * m) e).

(** [x < y] on floats. *)
Definition float_lt (x y : Q) : bool := negb (Qle_bool y x).

(** The float returned by [rng.random()] for the draw [a]. *)
Definition float_of_draw (a : N) : Q := Z.of_N a # Z.to_pos (2 ^ 53).

(** ** The counter *)

(** [container[key]] on a [collections.Counter]: a missing key reads as
    zero and is not inserted. *)
Definition getitem (container : gmap string Z) (key : string) : Z :=
  default 0 (container !! key).

(** [container[key] += n]: the key is stored, also when the sum is zero. *)
Definition iadd (container : gmap string Z) (key : string) (n : Z)
  : gmap string Z :=
  <[key := getitem container key + n]> container.

(** [sum(container.values())]. *)
Definition sum_values (container : gmap string Z) : Z :=
  map_fold (fun _ c acc => c + acc) 0 container.

Lemma getitem_iadd container key n :
  getitem (iadd container key n) key = getitem container key + n.
Proof. unfold iadd, getitem at 1. by rewrite lookup_insert_eq. Qed.

Lemma getitem_iadd_ne container key key' n :
  key ≠ key' → getitem (iadd container key n) key' = getitem container key'.
Proof. intros Hne. unfold iadd, getitem at 1. by rewrite lookup_insert_ne. Qed.

(** ** The generator *)

(** [Random seed] builds a generator; [random g] is one call of
    [g.random()]: the draw and the generator after it. *)
Class PRNG (R : Type) := {
  Random : Z → R;
  random : R → N * R
}.

(** ** The sampler *)

Section Sampler.
Context {R : Type} `{PRNG R}.

(** [reservoir_extend(container, elem, k, rng)]: the returned boolean,
    the counter and the generator after the call. *)
Equations reservoir_extend (container : gmap string Z) (elem : string)
    (k : Z) (rng : R) : result (bool * gmap string Z * R)
    by wf (Z.to_nat (getitem container elem - k + 1)) lt :=
  reservoir_extend container elem k rng
    with Z_le_dec k (getitem container elem) := {
    | left _ with float_div k (k + 1) := {
        | Raise e => Raise e
        | Ok ratio =>
            if float_lt (float_of_draw (random rng).1) ratio
            then Ok (false, container, (random rng).2)
            else reservoir_extend (iadd container elem (-1)) elem k
                   (random rng).2 }
    | right _ => Ok (true, iadd container elem 1, rng) }.
Next Obligation. rewrite getitem_iadd. lia. Qed.

End Sampler.

(** ** The pass *)

(** The objects [preprocess] mutates while it reads the rows. *)
Record state (R : Type) : Type := State {
  rng : R;
  freq : gmap string Z;
  clients_triehh : list string;
  clients_sfp : list string
}.

Arguments State {R} _ _ _ _.
Arguments rng {R} _.
Arguments freq {R} _.
Arguments clients_triehh {R} _.
Arguments clients_sfp {R} _.

(** Truth value of [keep_type]: [None] and the empty string are false. *)
Definition truthy (keep_type : option string) : bool :=
  match keep_type with
  | Some s => negb (String.eqb s "")
  | None => false
  end.

(** [c / total_clients] for every item of the counter. *)
Definition rel_freq (freq : gmap string Z) (total_clients : Z)
  : result (gmap string Q) :=
  map_fold
    (fun w c acc =>
       table ← acc;
       q ← float_div c total_clients;
       Ok (<[w := q]> table))
    (Ok ∅) freq.

Section Pass.
Context {R : Type} `{PRNG R}.

(** [for _ in range(n)]: one sampler call each, and the two appends when
    it accepts. *)
Fixpoint sample_loop (n : nat) (curr : string) (cap max_len : Z)
    (st : state R) : result (state R) :=
  match n with
  | O => Ok st
  | S n' =>
      '(accepted, freq', rng') ←
        reservoir_extend (freq st) curr cap (rng st);
      sample_loop n' curr cap max_len
        (if accepted : bool
         then State rng' freq'
                (clients_triehh st ++ [add_end_symbol curr])
                (clients_sfp st ++ [truncate_or_pad curr max_len])
         else State rng' freq' (clients_triehh st) (clients_sfp st))
  end.

(** The body of the [for] loop over the rows, for one row. *)
Definition process_row (max_len cap : Z) (keep_type : option string)
    (row : list string) (st : state R) : result (state R) :=
  match row with
  | [prev; curr; typ; cnt] =>
      if truthy keep_type && negb (bool_decide (Some typ = keep_type))
      then Ok st
      else
        cnt ← py_int cnt;
        let cnt :=
          if negb (cap =? 0) && (cap <? cnt) then cap else cnt in
        if negb (cap =? 0)
        then sample_loop (Z.to_nat cnt) curr cap max_len st
        else
          Ok (State (rng st)
                (iadd (freq st) curr cnt)
                (clients_triehh st
                   ++ replicate (Z.to_nat cnt) (add_end_symbol curr))
                (clients_sfp st
                   ++ replicate (Z.to_nat cnt)
                        (truncate_or_pad curr max_len)))
  | _ => Ok st
  end.

(** The [for] loop over the rows. *)
Fixpoint pass (max_len cap : Z) (keep_type : option string)
    (rows : list (list string)) (st : state R) : result (state R) :=
  match rows with
  | [] => Ok st
  | row :: rows' =>
      st' ← process_row max_len cap keep_type row st;
      pass max_len cap keep_type rows' st'
  end.

(** The state before the first row. *)
Definition initial (seed : Z) : state R :=
  State (Random seed) ∅ [] [].

(** [preprocess(path, max_len, cap, keep_type, seed)], on the rows read
    from [path]; the result is the three objects it pickles. *)
Definition preprocess (rows : list (list string)) (max_len cap : Z)
    (keep_type : option string) (seed : Z)
  : result (list string * list string * gmap string Q) :=
  st ← pass max_len cap keep_type rows (initial seed);
  let total_clients := Z.of_nat (length (clients_triehh st)) in
  rel_freq ← rel_freq (freq st) total_clients;
  Ok (clients_triehh st, clients_sfp st, rel_freq).

End Pass.

(** ** The generator of CPython

    [random.Random] is the Mersenne Twister MT19937 of CPython's
    [_randommodule.c]: 624 words of 32 bits and the index of the next
    word.  An integer seed is keyed by the 32-bit digits of its absolute
    value, least significant first. *)

Module MT19937.

Definition u32 (x : Z) : Z := x mod 2 ^ 32.

Record mt_state : Type := MT { mt : list Z; index : nat }.

Definition word (l : list Z) (i : nat) : Z := default 0 (l !! i).

Fixpoint init_genrand_from (n : nat) (mti prev : Z) : list Z :=
  match n with
  | O => []
  | S n' =>
      let x := u32 (1812433253 * Z.lxor prev (Z.shiftr prev 30) + mti) in
      x :: init_genrand_from n' (mti + 1) x
  end.

Definition init_genrand (s : Z) : list Z :=
  u32 s :: init_genrand_from 623 1 (u32 s).

(** The wrap of [i] at the end of both loops of [init_by_array]. *)
Definition wrap_index (l : list Z) (i : nat) : list Z * nat :=
  if decide (624 ≤ i)%nat then (<[0%nat := word l 623]> l, 1%nat) else (l, i).

Fixpoint key_loop (k : nat) (key : list Z) (l : list Z) (i j : nat)
  : list Z * nat :=
  match k with
  | O => (l, i)
  | S k' =>
      let p := word l (i - 1) in
      let x := u32 (Z.lxor (word l i)
                      (u32 (Z.lxor p (Z.shiftr p 30) * 1664525))
                    + word key j + Z.of_nat j) in
      let '(l', i') := wrap_index (<[i := x]> l) (S i) in
      key_loop k' key l' i'
        (if decide (length key ≤ S j)%nat then 0%nat else S j)
  end.

Fixpoint mix_loop (k : nat) (l : list Z) (i : nat) : list Z :=
  match k with
  | O => l
  | S k' =>
      let p := word l (i - 1) in
      let x := u32 (Z.lxor (word l i)
                      (u32 (Z.lxor p (Z.shiftr p 30) * 1566083941))
                    - Z.of_nat i) in
      let '(l', i') := wrap_index (<[i := x]> l) (S i) in
      mix_loop k' l' i'
  end.

Definition init_by_array (key : list Z) : mt_state :=
  let '(l, i) :=
    key_loop (Nat.max 624 (length key)) key (init_genrand 19650218)
      1 0 in
  MT (<[0%nat := 2 ^ 31]> (mix_loop 623 l i)) 624.

(** The 32-bit digits of [n], least significant first ([fuel] digits at
    most); zero has the single digit [0]. *)
Fixpoint digits32 (fuel : nat) (n : Z) : list Z :=
  match fuel with
  | O => []
  | S fuel' =>
      if n <? 2 ^ 32 then [n]
      else n mod 2 ^ 32 :: digits32 fuel' (n / 2 ^ 32)
  end.

Definition seed (a : Z) : mt_state :=
  let n := Z.abs a in
  init_by_array (digits32 (S (Z.to_nat (Z.log2 n))) n).

(** One step of the regeneration of the 624 words: word [kk] from the
    words [kk], [kk + 1] and [kk + 397], indices modulo 624. *)
Definition twist_word (l : list Z) (kk : nat) : list Z :=
  let y := Z.lor (Z.land (word l kk) 2147483648)
             (Z.land (word l ((kk + 1) mod 624)) 2147483647) in
  let mag := if Z.testbit y 0 then 2567483615 else 0 in
  <[kk := Z.lxor (Z.lxor (word l ((kk + 397) mod 624)) (Z.shiftr y 1)) mag]> l.

Definition twist (l : list Z) : list Z :=
  foldl twist_word l (seq 0 624).

Definition temper (y : Z) : Z :=
  let y := Z.lxor y (Z.shiftr y 11) in
  let y := Z.lxor y (Z.land (u32 (Z.shiftl y 7)) 2636928640) in
  let y := Z.lxor y (Z.land (u32 (Z.shiftl y 15)) 4022730752) in
  Z.lxor y (Z.shiftr y 18).

Definition genrand_uint32 (g : mt_state) : Z * mt_state :=
  let g' := if decide (624 ≤ index g)%nat then MT (twist (mt g)) 0 else g in
  (temper (word (mt g') (index g')), MT (mt g') (S (index g'))).

(** [random()]: 27 and 26 bits of two words, as the numerator of a
    fraction of [2^53]. *)
Definition genrand_res53 (g : mt_state) : N * mt_state :=
  let '(a, g1) := genrand_uint32 g in
  let '(b, g2) := genrand_uint32 g1 in
  (Z.to_N (Z.shiftr a 5 * 67108864 + Z.shiftr b 6), g2).

End MT19937.

#[global] Instance mersenne_twister : PRNG MT19937.mt_state := {|
  Random := MT19937.seed;
  random := MT19937.genrand_res53
|}.

(** A generator with more state than the one it wraps: it also counts
    the draws it has handed out. *)
Definition counting {R : Type} {H : PRNG R} : PRNG (R * nat) := {|
  Random := fun seed => (Random seed, 0%nat);
  random := fun g => ((random g.1).1, ((random g.1).2, S g.2))
|}.

(** ** The sampler in the words of the specification *)

(** The event "reject" of one draw [a]: [rng.random() < k / (k + 1)]. *)
Definition rejects (k : Z) (a : N) : bool :=
  match float_div k (k + 1) with
  | Ok ratio => float_lt (float_of_draw a) ratio
  | Raise _ => false
  end.

(** The number of draws, out of the [2^53] a generator can return, that
    reject: the numerator of the double nearest to [k / (k + 1)]. *)
Definition threshold (k : Z) : Z := round_half_even (k * 2 ^ 53) (k + 1).

(** One occurrence request for the token [elem] under the cap [k]: while
    the counter is at [k] or above, either the draw rejects, and the
    request stops with the counter as it is, or the counter loses one and
    the condition is checked again; once the counter is below [k] it gains
    one and the occurrence is accepted. *)
Inductive thinning {R : Type} `{PRNG R} (elem : string) (k : Z)
  : gmap string Z → R → bool * gmap string Z * R → Prop :=
| thinning_reject container rng :
    k ≤ getitem container elem →
    rejects k (random rng).1 = true →
    thinning elem k container rng (false, container, (random rng).2)
| thinning_decrement container rng out :
    k ≤ getitem container elem →
    rejects k (random rng).1 = false →
    thinning elem k (iadd container elem (-1)) (random rng).2 out →
    thinning elem k container rng out
| thinning_accept container rng :
    getitem container elem < k →
    thinning elem k container rng (true, iadd container elem 1, rng).

(** ** Vocabulary of the claims *)

(** The token and the count field of a row that passes the filter: four
    fields, and the kind asked for when a kind is asked for. *)
Definition surviving (keep_type : option string) (row : list string)
  : option (string * string) :=
  match row with
  | [prev; curr; typ; cnt] =>
      if truthy keep_type && negb (bool_decide (Some typ = keep_type))
      then None
      else Some (curr, cnt)
  | _ => None
  end.

(** The counts of the surviving rows whose token is [t], added up. *)
Fixpoint cumulative_count (keep_type : option string)
    (rows : list (list string)) (t : string) : Z :=
  match rows with
  | [] => 0
  | row :: rows' =>
      match surviving keep_type row with
      | Some (curr, cnt) =>
          match py_int cnt with
          | Ok n => if decide (curr = t) then n else 0
          | Raise _ => 0
          end
      | None => 0
      end + cumulative_count keep_type rows' t
  end.

(** The count of the row is not negative, when the row survives and its
    count is an integer. *)
Definition nonneg_count (keep_type : option string) (row : list string)
  : Prop :=
  match surviving keep_type row with
  | Some (_, cnt) =>
      match py_int cnt with
      | Ok n => 0 ≤ n
      | Raise _ => True
      end
  | None => True
  end.

(** No surviving row has a negative count. *)
Definition nonneg_counts (keep_type : option string)
    (rows : list (list string)) : Prop :=
  Forall (nonneg_count keep_type) rows.

(** [sum(frequencies.values())], in exact arithmetic. *)
Definition sum_floats (table : gmap string Q) : Q :=
  map_fold (fun _ q acc => (q + acc)%Q) 0%Q table.

(** The float [c / total], when the division returns one. *)
Definition quotient (total c : Z) : option Q :=
  match float_div c total with
  | Ok q => Some q
  | Raise _ => None
  end.

(** Rows whose count is an integer whenever they survive the filter. *)
Definition counts_parse (keep_type : option string)
    (rows : list (list string)) : Prop :=
  Forall (fun row =>
            match surviving keep_type row with
            | Some (_, cnt) => ∃ n, py_int cnt = Ok n
            | None => True
            end) rows.

(** The first [n] draws of a generator. *)
Fixpoint draws {R : Type} `{PRNG R} (n : nat) (g : R) : list N :=
  match n with
  | O => []
  | S n' => (random g).1 :: draws n' (random g).2
  end.

(** Two generators, possibly of two kinds, that hand out the same draws. *)
Definition same_draws {R1 R2 : Type} {H1 : PRNG R1} {H2 : PRNG R2}
    (g1 : R1) (g2 : R2) : Prop :=
  ∀ n, draws n g1 = draws n g2.

(** The two lists have one entry per accepted occurrence each, and the
    counts never add up to more than that. *)
Definition aligned {R : Type} (st : state R) : Prop :=
  length (clients_triehh st) = length (clients_sfp st)
  ∧ sum_values (freq st) ≤ Z.of_nat (length (clients_triehh st)).

(** Under a positive cap every count stays between zero and the cap. *)
Definition within {R : Type} (st : state R) (cap : Z) : Prop :=
  ∀ t, 0 ≤ getitem (freq st) t ≤ cap.

(** Without a cap, and with counts that are not negative, the counts
    add up to the number of entries. *)
Definition exact {R : Type} (st : state R) : Prop :=
  sum_values (freq st) = Z.of_nat (length (clients_triehh st))
  ∧ ∀ t, 0 ≤ getitem (freq st) t.

(** Two states that differ at most in the kind of their generators. *)
Definition same_state {R1 R2 : Type} {H1 : PRNG R1} {H2 : PRNG R2}
    (st1 : state R1) (st2 : state R2) : Prop :=
  freq st1 = freq st2
  ∧ clients_triehh st1 = clients_triehh st2
  ∧ clients_sfp st1 = clients_sfp st2
  ∧ same_draws (rng st1) (rng st2).

(** Two outcomes that agree: the same exception, or values related by
    [P]. *)
Definition same_outcome {A1 A2 : Type} (P : A1 → A2 → Prop)
    (r1 : result A1) (r2 : result A2) : Prop :=
  match r1, r2 with
  | Ok a1, Ok a2 => P a1 a2
  | Raise e1, Raise e2 => e1 = e2
  | _, _ => False
  end.

(** ** Inputs of the examples *)

Definition twice_A : list (list string) :=
  [["X"; "A"; "link"; "1"]; ["X"; "A"; "link"; "1"]]%string.

Definition A3_B1 : list (list string) :=
  [["X"; "A"; "link"; "3"]; ["X"; "B"; "link"; "1"]]%string.

Definition zero_count : list (list string) :=
  [["X"; "A"; "link"; "0"]]%string.

Definition bad_count : list string := ["X"; "A"; "link"; "abc"]%string.

(** The state after [A3_B1] with the cap disabled. *)
Definition A3_B1_uncapped : state MT19937.mt_state :=
  State (Random 0)
    (<["B"%string := 1]> (<["A"%string := 3]> ∅))
    ["A$"; "A$"; "A$"; "B$"]%string
    ["A$$$$$$$$$$$$$$$"; "A$$$$$$$$$$$$$$$"; "A$$$$$$$$$$$$$$$";
     "B$$$$$$$$$$$$$$$"]%string.

(** The floats [0.75] and [0.25]. *)
Definition A3_B1_table : gmap string Q :=
  <["B"%string := ldexp (2 ^ 52) (-54)]>
    (<["A"%string := ldexp (3 * 2 ^ 51) (-53)]> ∅).

(** The state after [zero_count] with the cap disabled. *)
Definition zero_count_uncapped : state MT19937.mt_state :=
  State (Random 0) (<["A"%string := 0]> ∅) [] [].

(** ** Opening the dump *)

(** The two ways [open_any] opens a path. *)
Inductive opener : Set :=
| gzip_open
| builtin_open.

(** [s.endswith(suffix)]. *)
Definition endswith (s suffix : string) : bool :=
  (String.length suffix <=? String.length s)%nat
  && String.eqb
       (substring (String.length s - String.length suffix)
          (String.length suffix) s)
       suffix.

(** [open_any(path)]: which function opens [path]. *)
Definition open_any (path : string) : opener :=
  if endswith path ".gz" then gzip_open else builtin_open.

(** One round of the loop of [os.path.join] (POSIX): a component that
    starts with a slash replaces what came before it. *)
Definition join_step (path b : string) : string :=
  if String.prefix "/" b then b
  else if String.eqb path "" || endswith path "/" then path +:+ b
  else path +:+ "/" +:+ b.

Definition os_path_join (a : string) (p : list string) : string :=
  foldl join_step a p.

(** The path the command line settles on: [--path] when it is given and
    not empty, else the dump of [--month] and [--lang] under
    [clickstream]. *)
Definition tsv_path (path : option string) (lang month : string) : string :=
  if truthy path then default EmptyString path
  else
    let fn := "clickstream-" +:+ lang +:+ "wiki-" +:+ month +:+ ".tsv.gz" in
    os_path_join "clickstream" [month; fn].

(** ** More vocabulary *)

(** The tokens a row stands for when nothing is thinned: its token, as
    many times as its count says. *)
Definition row_tokens (keep_type : option string) (row : list string)
  : list string :=
  match surviving keep_type row with
  | Some (curr, cnt) =>
      match py_int cnt with
      | Ok n => replicate (Z.to_nat n) curr
      | Raise _ => []
      end
  | None => []
  end.

(** The occurrences of [t] the rows ask for once each count is clamped
    to [cap]. *)
Fixpoint clamped_count (cap : Z) (keep_type : option string)
    (rows : list (list string)) (t : string) : Z :=
  match rows with
  | [] => 0
  | row :: rows' =>
      match surviving keep_type row with
      | Some (curr, cnt) =>
          match py_int cnt with
          | Ok n => if decide (curr = t) then Z.max 0 (Z.min cap n) else 0
          | Raise _ => 0
          end
      | None => 0
      end + clamped_count cap keep_type rows' t
  end.

(** The generator after [n] draws. *)
Fixpoint advance {R : Type} `{PRNG R} (n : nat) (g : R) : R :=
  match n with
  | O => g
  | S n' => advance n' (random g).2
  end.

(** [clients.count(t + '$')]: the entries of the first list that encode
    the token [t]. *)
Definition emitted (t : string) (clients : list string) : nat :=
  length (filter (fun c => c = add_end_symbol t) clients).

(** Under a positive cap a token the counter holds has a count of one at
    least. *)
Definition keys_positive {R : Type} (st : state R) : Prop :=
  ∀ t c, freq st !! t = Some c → 1 ≤ c.

(** The state after [twice_A] under [cap = 1] and [seed = 0]: one draw
    has been made. *)
Definition twice_A_capped : state MT19937.mt_state :=
  State (random (Random 0)).2 (<["A"%string := 1]> ∅)
    ["A$"; "A$"]%string
    ["A$$$$$$$$$$$$$$$"; "A$$$$$$$$$$$$$$$"]%string.

(** * Properties *)

(** ** The encoders *)

Example truncate_Apollo : truncate_or_pad "Apollo" 4 = "Apol"%string.
Proof. reflexivity. Qed.

Example pad_Io : truncate_or_pad "Io" 4 = "Io$$"%string.
Proof. reflexivity. Qed.

Example end_Apollo : add_end_symbol "Apollo" = "Apollo$"%string.
Proof. reflexivity. Qed.

Lemma length_string_rep n c : String.length (string_rep n c) = n.
Proof. induction n as [|n IH]; simpl; congruence. Qed.

Lemma append_cons (c : ascii) (s t : string) :
  String c s +:+ t = String c (s +:+ t).
Proof. reflexivity. Qed.

Lemma length_append (s t : string) :
  String.length (s +:+ t) = (String.length s + String.length t)%nat.
Proof.
  induction s as [|c s IH]; [done|]. rewrite append_cons. simpl. by rewrite IH.
Qed.

Lemma append_empty_r (s : string) : s +:+ "" = s.
Proof. induction s as [|c s IH]; [done|]. by rewrite append_cons, IH. Qed.

Lemma get_append_r (s t : string) (i : nat) :
  String.get (String.length s + i) (s +:+ t) = String.get i t.
Proof. induction s as [|c s IH]; [done|]. rewrite append_cons. apply IH. Qed.

Lemma get_string_rep n c i :
  (i < n)%nat → String.get i (string_rep n c) = Some c.
Proof.
  revert i. induction n as [|n IH]; intros i Hi; [lia|].
  destruct i as [|i]; simpl; [done|]. apply IH. lia.
Qed.

Lemma substring_all (s : string) (n : nat) :
  (String.length s ≤ n)%nat → substring 0 n s = s.
Proof.
  revert n. induction s as [|c s IH]; intros n Hn.
  - by destruct n.
  - destruct n as [|n]; simpl in *; [lia|]. f_equal. apply IH. lia.
Qed.

Lemma length_substring_0 (s : string) (n : nat) :
  (n ≤ String.length s)%nat → String.length (substring 0 n s) = n.
Proof.
  revert n. induction s as [|c s IH]; intros n Hn.
  - destruct n; simpl in *; [done|lia].
  - destruct n as [|n]; simpl in *; [done|]. f_equal. apply IH. lia.
Qed.

(** A token shorter than [L] is kept whole and padded with ['$']. *)
Lemma truncate_or_pad_short (s : string) (L : Z) :
  Z.of_nat (String.length s) < L →
  truncate_or_pad s L =
  s +:+ string_rep (Z.to_nat L - String.length s) "$".
Proof.
  intros Hlt. unfold truncate_or_pad, ljust, slice_to.
  destruct (L <? 0) eqn:HL; [lia|].
  rewrite substring_all by lia. do 2 f_equal. lia.
Qed.

(** A token of [L] characters or more is cut to its first [L]. *)
Lemma truncate_or_pad_long (s : string) (L : Z) :
  0 ≤ L ≤ Z.of_nat (String.length s) →
  truncate_or_pad s L = substring 0 (Z.to_nat L) s.
Proof.
  intros [H0 Hle]. unfold truncate_or_pad, ljust, slice_to.
  destruct (L <? 0) eqn:HL; [lia|].
  rewrite length_substring_0 by lia.
  replace (Z.to_nat (L - Z.of_nat (Z.to_nat L))) with 0%nat by lia.
  apply append_empty_r.
Qed.

(** With [0 <= L] the second encoding has exactly [L] characters. *)
Lemma length_truncate_or_pad (s : string) (L : Z) :
  0 ≤ L → String.length (truncate_or_pad s L) = Z.to_nat L.
Proof.
  intros H0. destruct (Z_lt_le_dec (Z.of_nat (String.length s)) L).
  - rewrite truncate_or_pad_short by done.
    rewrite length_append, length_string_rep. lia.
  - rewrite truncate_or_pad_long by lia. apply length_substring_0. lia.
Qed.

(** C8, as the code has it.  The character [add_end_symbol] appends and
    the character [truncate_or_pad] pads with are the same one, ['$'],
    whatever the token: the terminator sits right after the token, and so
    does the first filler of a token shorter than [L]. *)
Theorem terminator_and_filler (s : string) (L : Z) (i : nat) :
  String.get (String.length s) (add_end_symbol s) = Some "$"%char
  ∧ ((String.length s ≤ i)%nat → Z.of_nat i < L →
     String.get i (truncate_or_pad s L) = Some "$"%char).
Proof.
  split.
  - unfold add_end_symbol.
    rewrite <- (Nat.add_0_r (String.length s)) at 1.
    by rewrite get_append_r.
  - intros Hi HL. rewrite truncate_or_pad_short by lia.
    replace i with (String.length s + (i - String.length s))%nat by lia.
    rewrite get_append_r. apply get_string_rep. lia.
Qed.

Lemma terminator_and_filler_witness :
  String.get 2 (add_end_symbol "Io") = Some "$"%char
  ∧ String.get 3 (truncate_or_pad "Io" 4) = Some "$"%char.
Proof.
  split.
  - exact (proj1 (terminator_and_filler "Io" 4 3)).
  - apply (proj2 (terminator_and_filler "Io" 4 3)); simpl; lia.
Defined.

(** The terminator of the first encoding is the filler of the second,
    and a token may itself end with it: ["Io"] and ["Io$"] get the same
    second encoding, which is also the first encoding of ["Io$"]. *)
Lemma terminator_is_filler :
  String.get 2 (add_end_symbol "Io") = String.get 2 (truncate_or_pad "Io" 4)
  ∧ truncate_or_pad "Io$" 4 = truncate_or_pad "Io" 4
  ∧ add_end_symbol "Io$" = truncate_or_pad "Io" 4.
Proof. repeat split. Qed.

(** ** The counter *)

Lemma sum_values_empty : sum_values ∅ = 0.
Proof. apply map_fold_empty. Qed.

Lemma sum_values_insert_fresh (m : gmap string Z) key v :
  m !! key = None → sum_values (<[key := v]> m) = v + sum_values m.
Proof.
  intros Hnone. unfold sum_values.
  rewrite map_fold_insert_L; [done| |done]. intros; lia.
Qed.

Lemma sum_values_insert (m : gmap string Z) key v :
  sum_values (<[key := v]> m) = sum_values m - getitem m key + v.
Proof.
  unfold getitem. destruct (m !! key) as [x|] eqn:Hkey; simpl.
  - rewrite <- (insert_delete_id m key x) at 2 by done.
    rewrite <- (insert_delete_eq m key v).
    rewrite !sum_values_insert_fresh by apply lookup_delete_eq. lia.
  - rewrite sum_values_insert_fresh by done. lia.
Qed.

Lemma sum_values_iadd (m : gmap string Z) key n :
  sum_values (iadd m key n) = sum_values m + n.
Proof. unfold iadd. rewrite sum_values_insert. lia. Qed.

(** ** The sampler *)

Section SamplerFacts.
Context {R : Type} `{PRNG R}.

(** The loop of [reservoir_extend], one evaluation of its condition at
    a time. *)
Lemma reservoir_extend_eq container elem k (rng : R) :
  reservoir_extend container elem k rng =
  if decide (k ≤ getitem container elem) then
    ratio ← float_div k (k + 1);
    if float_lt (float_of_draw (random rng).1) ratio
    then Ok (false, container, (random rng).2)
    else reservoir_extend (iadd container elem (-1)) elem k (random rng).2
  else Ok (true, iadd container elem 1, rng).
Proof.
  etrans; [apply reservoir_extend_equation_1|].
  destruct (Z_le_dec k (getitem container elem)) as [Hle|Hgt]; simpl.
  - rewrite decide_True by done.
    destruct (float_div k (k + 1)); simpl; [|done].
    reflexivity.
  - by rewrite decide_False by done.
Qed.

End SamplerFacts.

(** ** Floats *)

Lemma round_half_even_error n d :
  0 < d → 2 * Z.abs (round_half_even n d * d - n) ≤ d.
Proof.
  intros Hd. unfold round_half_even.
  pose proof (Z.div_mod n d ltac:(lia)) as Hdiv.
  pose proof (Z.mod_pos_bound n d Hd) as Hmod.
  repeat case_match; lia.
Qed.

Lemma round_half_even_bounds n d :
  n / d ≤ round_half_even n d ≤ n / d + 1.
Proof. unfold round_half_even. repeat case_match; lia. Qed.

Lemma log2_succ_cases k :
  0 < k → Z.log2 (k + 1) = Z.log2 k ∨ Z.log2 (k + 1) = Z.log2 k + 1.
Proof.
  intros Hk. pose proof (Z.log2_le_mono k (k + 1) ltac:(lia)).
  pose proof (Z.log2_succ_le k). unfold Z.succ in *. lia.
Qed.

(** For a cap [0 < k] the float [k / (k + 1)] is [threshold k / 2^53]. *)
Lemma float_div_succ k :
  0 < k → float_div k (k + 1) = Ok (threshold k # Z.to_pos (2 ^ 53)).
Proof.
  intros Hk. unfold float_div, threshold.
  destruct (Z.eqb_spec (k + 1) 0) as [?|_]; [lia|].
  destruct (Z.eqb_spec k 0) as [?|_]; [lia|].
  rewrite (Z.abs_eq k), (Z.abs_eq (k + 1)) by lia.
  rewrite (Z.sgn_pos k), (Z.sgn_pos (k + 1)) by lia.
  cbv zeta.
  assert (He1 :
    (if 2 ^ 53 * ((k + 1) * 2 ^ Z.max 0 (Z.log2 k - Z.log2 (k + 1) - 53))
        <=? k * 2 ^ Z.max 0 (- (Z.log2 k - Z.log2 (k + 1) - 53))
     then Z.log2 k - Z.log2 (k + 1) - 53 + 1
     else Z.log2 k - Z.log2 (k + 1) - 53) = -53).
  { destruct (log2_succ_cases k Hk) as [-> | ->].
    - replace (Z.log2 k - Z.log2 k - 53) with (-53) by lia.
      change (Z.max 0 (-53)) with 0. change (Z.max 0 (- -53)) with 53.
      destruct (Z.leb_spec (2 ^ 53 * ((k + 1) * 2 ^ 0)) (k * 2 ^ 53)); lia.
    - replace (Z.log2 k - (Z.log2 k + 1) - 53) with (-54) by lia.
      change (Z.max 0 (-54)) with 0. change (Z.max 0 (- -54)) with 54.
      change (2 ^ 54) with (2 * 2 ^ 53). change (2 ^ 0) with 1.
      assert (HP : 0 < 2 ^ 53) by done. revert HP.
      generalize (2 ^ 53). intros P HP.
      destruct (Z.leb_spec (P * ((k + 1) * 1)) (k * (2 * P))); [lia|].
      assert (0 ≤ P * (k - 1)) by (apply Z.mul_nonneg_nonneg; lia). lia. }
  simpl fst; simpl snd. rewrite He1.
  change (Z.max (-53) (-1074)) with (-53).
  change (Z.max 0 (- -53)) with 53. change (Z.max 0 (-53)) with 0.
  change (2 ^ (-53)) with 0. rewrite Z.mul_0_r.
  change (2 ^ 1024 <=? 0) with false. cbv iota.
  unfold ldexp. change (0 <=? -53) with false. cbv iota.
  change (- -53) with 53. rewrite Z.pow_0_r.
  by rewrite Z.mul_1_l, Z.mul_1_r.
Qed.

Lemma threshold_bounds k : 0 < k → 0 ≤ threshold k ≤ 2 ^ 53.
Proof.
  intros Hk. unfold threshold.
  pose proof (round_half_even_bounds (k * 2 ^ 53) (k + 1)) as Hb.
  assert (0 ≤ k * 2 ^ 53 / (k + 1)) by (apply Z.div_pos; lia).
  assert (k * 2 ^ 53 / (k + 1) < 2 ^ 53).
  { apply Z.div_lt_upper_bound; [lia|].
    assert (HP : 0 < 2 ^ 53) by done. revert HP.
    generalize (2 ^ 53). intros P HP. lia. }
  lia.
Qed.

(** A draw rejects exactly when it is below the threshold. *)
Lemma rejects_threshold k a :
  0 < k → rejects k a = true ↔ Z.of_N a < threshold k.
Proof.
  intros Hk. unfold rejects. rewrite float_div_succ by done.
  unfold float_lt, float_of_draw, Qle_bool. cbn [Qnum Qden].
  rewrite negb_true_iff, Z.leb_gt.
  assert (HP : 0 < Z.pos (Z.to_pos (2 ^ 53))) by done.
  revert HP. generalize (Z.pos (Z.to_pos (2 ^ 53))). intros P HP.
  split; intros Hlt.
  - apply Z.mul_lt_mono_pos_r in Hlt; done.
  - apply Z.mul_lt_mono_pos_r; done.
Qed.

(** A quotient of at most one has an exponent of [-52] at most. *)
Lemma float_div_small c total :
  0 < c ≤ total →
  ∃ e, e ≤ -52
       ∧ float_div c total
         = Ok (round_half_even (c * 2 ^ (- e)) total # Z.to_pos (2 ^ (- e))).
Proof.
  intros [Hc Hle]. unfold float_div.
  destruct (Z.eqb_spec total 0) as [?|_]; [lia|].
  destruct (Z.eqb_spec c 0) as [?|_]; [lia|].
  rewrite (Z.abs_eq c), (Z.abs_eq total) by lia.
  rewrite (Z.sgn_pos c), (Z.sgn_pos total) by lia.
  cbv zeta. simpl fst; simpl snd.
  set (e0 := Z.log2 c - Z.log2 total - 53).
  assert (He0 : e0 ≤ -53).
  { pose proof (Z.log2_le_mono c total Hle). unfold e0. lia. }
  set (e1 := if _ <=? _ then e0 + 1 else e0).
  assert (He1 : e1 ≤ -52) by (unfold e1; case_match; lia).
  set (e := Z.max e1 (-1074)).
  assert (He : e ≤ -52) by lia.
  exists e. split; [done|].
  rewrite (Z.max_r 0 (- e)), (Z.max_l 0 e) by lia.
  rewrite (Z.pow_neg_r 2 e) by lia.
  rewrite Z.mul_0_r. change (2 ^ 1024 <=? 0) with false. cbv iota.
  unfold ldexp. destruct (Z.leb_spec 0 e) as [?|_]; [lia|].
  by rewrite Z.pow_0_r, Z.mul_1_l, Z.mul_1_r.
Qed.

(** Such a quotient is rounded by at most [2^-53]. *)
Lemma float_div_error c total :
  0 ≤ c ≤ total → 0 < total →
  ∃ q, float_div c total = Ok q
       ∧ (Qabs (q - (c # Z.to_pos total)) <= 1 # Z.to_pos (2 ^ 53))%Q.
Proof.
  intros [Hc Hle] Htotal. destruct (Z.eq_dec c 0) as [->|Hne].
  - exists 0%Q. split.
    + unfold float_div. destruct (Z.eqb_spec total 0); [lia|done].
    + done.
  - destruct (float_div_small c total ltac:(lia)) as (e & He & ->).
    eexists; split; [done|].
    pose proof (round_half_even_error (c * 2 ^ (- e)) total Htotal) as Herr.
    assert (HP : 2 ^ 52 ≤ 2 ^ (- e)) by (apply Z.pow_le_mono_r; lia).
    revert Herr HP.
    generalize (round_half_even (c * 2 ^ (- e)) total). intros m.
    generalize (2 ^ (- e)). intros P Herr HP.
    assert (0 < P) by lia.
    unfold Qabs, Qminus, Qplus, Qopp, Qle. cbn [Qnum Qden].
    rewrite Pos2Z.inj_mul, !Z2Pos.id by lia.
    change (Z.pos (Z.to_pos (2 ^ 53))) with (2 * 2 ^ 52).
    rewrite Z.mul_1_l.
    transitivity (total * 2 ^ 52); [|nia].
    replace (m * total + - c * P) with (m * total - c * P) by lia.
    nia.
Qed.

(** ** The sampler against the specification *)

Section Thinning.
Context {R : Type} `{PRNG R}.

(** The loop for a cap [0 < k], where the division cannot fail. *)
Lemma reservoir_extend_step container elem k (rng : R) :
  0 < k →
  reservoir_extend container elem k rng =
  if decide (k ≤ getitem container elem) then
    if rejects k (random rng).1
    then Ok (false, container, (random rng).2)
    else reservoir_extend (iadd container elem (-1)) elem k (random rng).2
  else Ok (true, iadd container elem 1, rng).
Proof.
  intros Hk. rewrite reservoir_extend_eq at 1. unfold rejects.
  by rewrite float_div_succ.
Qed.

(** The call returns, and what it returns is a thinning of the
    request.  The measure is the distance of the counter above the
    cap. *)
Lemma reservoir_extend_returns elem k (n : nat) :
  0 < k →
  ∀ container (rng : R),
    Z.to_nat (getitem container elem - k + 1) = n →
    ∃ out, reservoir_extend container elem k rng = Ok out
           ∧ thinning elem k container rng out.
Proof.
  intros Hk. induction n as [|n IH]; intros container rng Hn.
  - exists (true, iadd container elem 1, rng).
    rewrite reservoir_extend_step, decide_False by lia.
    split; [done|]. apply thinning_accept. lia.
  - rewrite reservoir_extend_step, decide_True by lia.
    destruct (rejects k (random rng).1) eqn:Hrej.
    + exists (false, container, (random rng).2). split; [done|].
      apply thinning_reject; [lia|done].
    + destruct (IH (iadd container elem (-1)) (random rng).2)
        as (out & Hout & Hthin).
      { rewrite getitem_iadd. lia. }
      exists out. split; [done|].
      apply thinning_decrement; [lia|done|done].
Qed.

(** Every thinning of a request is the one the call computes. *)
Lemma thinning_reservoir_extend elem k container (rng : R) out :
  0 < k →
  thinning elem k container rng out →
  reservoir_extend container elem k rng = Ok out.
Proof.
  intros Hk Hthin.
  induction Hthin as [container rng Hle Hrej
                     |container rng out Hle Hrej _ IH
                     |container rng Hlt];
    rewrite reservoir_extend_step by done.
  - by rewrite decide_True, Hrej by done.
  - by rewrite decide_True, Hrej by done.
  - by rewrite decide_False by lia.
Qed.

(** C2.  For a cap [0 < k], one call of [reservoir_extend] returns, and
    it is the loop of the specification: while the counter of the token
    is at [k] or above, a rejecting draw ends the call with [False] and
    the counter unchanged, any other draw takes one off the counter and
    the condition is checked again; below [k] the counter gains one and
    the call returns [True].  The rejecting draws are the [threshold k]
    smallest of the [2^53] equally likely ones, and [threshold k / 2^53]
    is within [2^-54] of [k / (k + 1)]. *)
Theorem reservoir_extend_thinning container elem k (rng : R) :
  0 < k →
  (∃ out, reservoir_extend container elem k rng = Ok out
          ∧ thinning elem k container rng out)
  ∧ (∀ out, thinning elem k container rng out →
            reservoir_extend container elem k rng = Ok out)
  ∧ (∀ a, rejects k a = true ↔ Z.of_N a < threshold k)
  ∧ 0 ≤ threshold k ≤ 2 ^ 53
  ∧ 2 * Z.abs (threshold k * (k + 1) - k * 2 ^ 53) ≤ k + 1.
Proof.
  intros Hk. repeat split.
  - by eapply reservoir_extend_returns.
  - intros out. by apply thinning_reservoir_extend.
  - by apply rejects_threshold.
  - by apply rejects_threshold.
  - by apply threshold_bounds.
  - by apply threshold_bounds.
  - apply round_half_even_error. lia.
Qed.

End Thinning.

(** ** The pass, row by row *)

Section PassFacts.
Context {R : Type} `{PRNG R}.
Implicit Types (st : state R) (row : list string).

(** A row is either skipped or handled through its token and count. *)
Lemma process_row_eq max_len cap keep_type row st :
  process_row max_len cap keep_type row st =
  match surviving keep_type row with
  | None => Ok st
  | Some (curr, cnt) =>
      n ← py_int cnt;
      if negb (cap =? 0)
      then sample_loop
             (Z.to_nat (if negb (cap =? 0) && (cap <? n) then cap else n))
             curr cap max_len st
      else
        Ok (State (rng st) (iadd (freq st) curr n)
              (clients_triehh st
                 ++ replicate (Z.to_nat n) (add_end_symbol curr))
              (clients_sfp st
                 ++ replicate (Z.to_nat n) (truncate_or_pad curr max_len)))
  end.
Proof.
  destruct row as [|prev [|curr [|typ [|cnt [|x row]]]]]; try done.
  unfold process_row, surviving.
  destruct (truthy keep_type && _); [done|].
  destruct (py_int cnt) as [n|e]; [|done]. simpl.
  by destruct (cap =? 0) eqn:Hcap.
Qed.

Lemma pass_app max_len cap keep_type rows1 rows2 st :
  pass max_len cap keep_type (rows1 ++ rows2) st =
  st' ← pass max_len cap keep_type rows1 st;
  pass max_len cap keep_type rows2 st'.
Proof.
  revert st. induction rows1 as [|row rows1 IH]; intros st; [done|].
  simpl. destruct (process_row max_len cap keep_type row st); [|done].
  apply IH.
Qed.

(** A property of the state kept by every sampler call, with its
    appends, is kept by the inner loop. *)
Lemma sample_loop_invariant (P : state R → Prop) curr cap max_len :
  (∀ st accepted freq' rng',
      P st →
      reservoir_extend (freq st) curr cap (rng st)
        = Ok (accepted, freq', rng') →
      P (if accepted
         then State rng' freq'
                (clients_triehh st ++ [add_end_symbol curr])
                (clients_sfp st ++ [truncate_or_pad curr max_len])
         else State rng' freq' (clients_triehh st) (clients_sfp st))) →
  ∀ n st st',
    P st → sample_loop n curr cap max_len st = Ok st' → P st'.
Proof.
  intros Hstep. induction n as [|n IH]; intros st st' HP Hloop.
  - simpl in Hloop. by inversion Hloop; subst.
  - simpl in Hloop.
    destruct (reservoir_extend (freq st) curr cap (rng st))
      as [[[accepted freq'] rng']|e] eqn:Hcall; [|done].
    eapply IH; [|exact Hloop]. by eapply Hstep.
Qed.

(** A property kept by every row of [rows] is kept by the pass. *)
Lemma pass_invariant (P : state R → Prop) max_len cap keep_type rows :
  (∀ row st st',
      row ∈ rows → P st →
      process_row max_len cap keep_type row st = Ok st' → P st') →
  ∀ st st', P st → pass max_len cap keep_type rows st = Ok st' → P st'.
Proof.
  induction rows as [|row rows IH]; intros Hstep st st' HP Hpass.
  - simpl in Hpass. by inversion Hpass; subst.
  - simpl in Hpass.
    destruct (process_row max_len cap keep_type row st) as [st1|e]
      eqn:Hrow; [|done].
    eapply IH; [|by eapply (Hstep row); [left|..]|exact Hpass].
    intros row' s s' Hin. apply Hstep. by right.
Qed.

End PassFacts.

(** ** Invariants of the pass *)

Lemma getitem_iadd_cases container key n t :
  getitem (iadd container key n) t =
  if decide (key = t) then getitem container t + n else getitem container t.
Proof.
  case_decide as Hkey; [subst; apply getitem_iadd|by apply getitem_iadd_ne].
Qed.

Lemma getitem_empty t : getitem ∅ t = 0.
Proof. unfold getitem. by rewrite lookup_empty. Qed.

Section Invariants.
Context {R : Type} `{PRNG R}.
Implicit Types (st : state R) (row : list string).

(** What one request does to the counter: no token rises above the cap
    or falls below zero, and the sum of the counts grows by at most the
    one accepted occurrence. *)
Lemma thinning_counter elem k container (rng : R) out :
  0 < k →
  thinning elem k container rng out →
  (∀ t, getitem container t ≤ k → getitem out.1.2 t ≤ k)
  ∧ (∀ t, 0 ≤ getitem container t → 0 ≤ getitem out.1.2 t)
  ∧ sum_values out.1.2
    ≤ sum_values container + (if out.1.1 then 1 else 0).
Proof.
  intros Hk Hthin.
  induction Hthin as [container rng Hle Hrej
                     |container rng out Hle Hrej _ (IHle & IHge & IHsum)
                     |container rng Hlt]; simpl in *.
  - repeat split; [done|done|lia].
  - repeat split.
    + intros t Ht. apply IHle. rewrite getitem_iadd_cases.
      case_decide; lia.
    + intros t Ht. apply IHge. rewrite getitem_iadd_cases.
      case_decide; subst; lia.
    + rewrite sum_values_iadd in IHsum. lia.
  - repeat split.
    + intros t Ht. rewrite getitem_iadd_cases. case_decide; subst; lia.
    + intros t Ht. rewrite getitem_iadd_cases. case_decide; lia.
    + rewrite sum_values_iadd. lia.
Qed.

Lemma reservoir_extend_counter elem k container (rng : R)
    accepted freq' rng' :
  0 < k →
  reservoir_extend container elem k rng = Ok (accepted, freq', rng') →
  (∀ t, getitem container t ≤ k → getitem freq' t ≤ k)
  ∧ (∀ t, 0 ≤ getitem container t → 0 ≤ getitem freq' t)
  ∧ sum_values freq' ≤ sum_values container + (if accepted then 1 else 0).
Proof.
  intros Hk Hcall.
  destruct (reservoir_extend_returns elem k _ Hk container rng eq_refl)
    as (out & Hout & Hthin).
  rewrite Hcall in Hout. inversion Hout; subst out.
  by apply (thinning_counter elem k container rng _ Hk Hthin).
Qed.

(** The three ways a row can leave a state behind: skipped (also every
    row under a negative cap), added in one step (cap [0]), or sampled
    occurrence by occurrence (positive cap). *)
Lemma process_row_Ok max_len cap keep_type row st st' :
  process_row max_len cap keep_type row st = Ok st' →
  (surviving keep_type row = None ∧ st' = st)
  ∨ ∃ curr cnt n,
      surviving keep_type row = Some (curr, cnt) ∧ py_int cnt = Ok n
      ∧ ((cap < 0 ∧ st' = st)
         ∨ (cap = 0
            ∧ st' = State (rng st) (iadd (freq st) curr n)
                      (clients_triehh st
                         ++ replicate (Z.to_nat n) (add_end_symbol curr))
                      (clients_sfp st
                         ++ replicate (Z.to_nat n)
                              (truncate_or_pad curr max_len)))
         ∨ (0 < cap
            ∧ sample_loop (Z.to_nat (Z.min cap n)) curr cap max_len st
              = Ok st')).
Proof.
  rewrite process_row_eq.
  destruct (surviving keep_type row) as [[curr cnt]|];
    [|inversion 1; subst; by left].
  destruct (py_int cnt) as [n|e] eqn:Hint; [simpl|done].
  intros Hrow. right. exists curr, cnt, n. do 2 (split; [done|]).
  destruct (Z.eqb_spec cap 0) as [->|Hcap]; simpl in Hrow.
  - right; left. by inversion Hrow.
  - destruct (Z.ltb_spec cap n), (Z_lt_le_dec cap 0).
    + left. replace (Z.to_nat cap) with 0%nat in Hrow by lia.
      by inversion Hrow.
    + right; right. rewrite Z.min_l by lia. split; [lia|done].
    + left. replace (Z.to_nat n) with 0%nat in Hrow by lia.
      by inversion Hrow.
    + right; right. rewrite Z.min_r by lia. split; [lia|done].
Qed.

Lemma process_row_aligned max_len cap keep_type row st st' :
  aligned st →
  process_row max_len cap keep_type row st = Ok st' →
  aligned st'.
Proof.
  intros Hst Hrow.
  apply process_row_Ok in Hrow
    as [[_ ->]|(curr & cnt & n & _ & _ &
                [[_ ->]|[[_ ->]|[Hcap Hloop]]])]; try done.
  - destruct Hst as [Hlen Hsum]. unfold aligned; simpl.
    rewrite !length_app, !length_replicate, sum_values_iadd. lia.
  - revert Hst Hloop. apply sample_loop_invariant.
    clear st st'. intros st accepted freq' rng' [Hlen Hsum] Hcall.
    apply reservoir_extend_counter in Hcall as (_ & _ & Hle); [|lia].
    destruct accepted; unfold aligned; simpl;
      rewrite ?length_app; simpl; lia.
Qed.

Lemma process_row_within max_len cap keep_type row st st' :
  0 < cap →
  within st cap →
  process_row max_len cap keep_type row st = Ok st' →
  within st' cap.
Proof.
  intros Hpos Hst Hrow.
  apply process_row_Ok in Hrow
    as [[_ ->]|(curr & cnt & n & _ & _ &
                [[_ ->]|[[? _]|[Hcap Hloop]]])]; try done; [lia|].
  revert Hst Hloop.
  apply (sample_loop_invariant (fun st => within st cap)).
  clear st st'. intros st accepted freq' rng' Hst Hcall.
  apply reservoir_extend_counter in Hcall as (Hle & Hge & _); [|lia].
  intros t. destruct (Hst t).
  destruct accepted; simpl; split; auto.
Qed.

Lemma process_row_exact max_len keep_type row st st' :
  nonneg_count keep_type row →
  exact st →
  process_row max_len 0 keep_type row st = Ok st' →
  exact st'.
Proof.
  intros Hcount Hst Hrow.
  apply process_row_Ok in Hrow
    as [[_ ->]|(curr & cnt & n & Hsurv & Hint &
                [[? _]|[[_ ->]|[? _]]])]; [done|lia| |lia].
  unfold nonneg_count in Hcount. rewrite Hsurv, Hint in Hcount.
  destruct Hst as [Hsum Hge]. split; simpl.
  - rewrite length_app, length_replicate, sum_values_iadd. lia.
  - intros t. rewrite getitem_iadd_cases. specialize (Hge t).
    case_decide; lia.
Qed.

(** Without a cap a row adds its count to its token and to no other. *)
Lemma process_row_count max_len keep_type row st st' t :
  process_row max_len 0 keep_type row st = Ok st' →
  getitem (freq st') t =
  getitem (freq st) t + cumulative_count keep_type [row] t.
Proof.
  intros Hrow. simpl.
  apply process_row_Ok in Hrow
    as [[-> ->]|(curr & cnt & n & -> & -> &
                [[? _]|[[_ ->]|[? _]]])]; try lia.
  simpl. rewrite getitem_iadd_cases. case_decide; lia.
Qed.

End Invariants.

(** ** Lengths and counts over a pass *)

Section PassInvariants.
Context {R : Type} `{PRNG R}.
Implicit Types (st : state R) (row : list string).

Lemma initial_aligned seed : aligned (initial (R := R) seed).
Proof. split; simpl; [done|]. by rewrite sum_values_empty. Qed.

Lemma initial_within seed cap : 0 < cap → within (initial (R := R) seed) cap.
Proof. intros Hcap t. simpl. rewrite getitem_empty. lia. Qed.

Lemma initial_exact seed : exact (initial (R := R) seed).
Proof.
  split; simpl; [by rewrite sum_values_empty|].
  intros t. by rewrite getitem_empty.
Qed.

(** Under a negative cap the pass changes nothing. *)
Lemma pass_negative_cap max_len cap keep_type rows st st' :
  cap < 0 → pass max_len cap keep_type rows st = Ok st' → st' = st.
Proof.
  intros Hcap. apply (pass_invariant (fun s => s = st)); [|done].
  intros row s s' _ -> Hrow.
  apply process_row_Ok in Hrow
    as [[_ ->]|(curr & cnt & n & _ & _ &
                [[_ ->]|[[? _]|[? _]]])]; done || lia.
Qed.

Lemma pass_count max_len keep_type rows st st' t :
  pass max_len 0 keep_type rows st = Ok st' →
  getitem (freq st') t =
  getitem (freq st) t + cumulative_count keep_type rows t.
Proof.
  revert st. induction rows as [|row rows IH]; intros st Hpass.
  - simpl in *. inversion Hpass; subst. lia.
  - simpl in Hpass.
    destruct (process_row max_len 0 keep_type row st) as [st1|e]
      eqn:Hrow; [|done].
    rewrite (IH st1 Hpass), (process_row_count _ _ _ _ _ t Hrow).
    simpl. lia.
Qed.

Lemma pass_aligned rows max_len cap keep_type seed st :
  pass max_len cap keep_type rows (initial seed) = Ok st → aligned st.
Proof.
  apply pass_invariant; [|apply initial_aligned].
  intros row s s' _. apply process_row_aligned.
Qed.

Lemma pass_within rows max_len cap keep_type seed st :
  0 < cap →
  pass max_len cap keep_type rows (initial seed) = Ok st → within st cap.
Proof.
  intros Hcap.
  apply (pass_invariant (fun s => within s cap)); [|by apply initial_within].
  intros row s s' _. by apply process_row_within.
Qed.

Lemma pass_exact rows max_len cap keep_type seed st :
  cap ≤ 0 → nonneg_counts keep_type rows →
  pass max_len cap keep_type rows (initial seed) = Ok st → exact st.
Proof.
  intros Hcap Hcounts Hpass. destruct (Z_lt_le_dec cap 0) as [Hneg|Hzero].
  - apply pass_negative_cap in Hpass as ->; [|done]. apply initial_exact.
  - assert (cap = 0) as -> by lia.
    revert Hpass. apply pass_invariant; [|apply initial_exact].
    intros row s s' Hin. apply process_row_exact.
    by apply (proj1 (Forall_forall _ _) Hcounts).
Qed.

(** Lengths and counts in every mode.  After every prefix of the input (any list
    of rows is the prefix of an input) the two client lists have the
    same length and the counts add up to at most that length; they add
    up to exactly that length when the cap is not positive and no
    surviving row has a negative count.  Under a positive cap the sum
    can stay below the length. *)
Theorem lengths_and_counter_sum rows max_len cap keep_type seed st :
  pass max_len cap keep_type rows (initial seed) = Ok st →
  length (clients_triehh st) = length (clients_sfp st)
  ∧ sum_values (freq st) ≤ Z.of_nat (length (clients_triehh st))
  ∧ (cap ≤ 0 → nonneg_counts keep_type rows →
     sum_values (freq st) = Z.of_nat (length (clients_triehh st))).
Proof.
  intros Hpass.
  destruct (pass_aligned _ _ _ _ _ _ Hpass) as [Hlen Hsum].
  do 2 (split; [done|]).
  intros Hcap Hcounts.
  by destruct (pass_exact _ _ _ _ _ _ Hcap Hcounts Hpass) as [? _].
Qed.

(** C3.  After every prefix of the input: under a positive cap no token
    has a count above the cap; with the cap disabled ([cap = 0]) the
    count of a token is the sum of the counts of the surviving rows
    that carry it. *)
Theorem counter_capped_or_cumulative rows max_len cap keep_type seed st :
  pass max_len cap keep_type rows (initial seed) = Ok st →
  (0 < cap → ∀ t, getitem (freq st) t ≤ cap)
  ∧ (cap = 0 →
     ∀ t, getitem (freq st) t = cumulative_count keep_type rows t).
Proof.
  intros Hpass. split.
  - intros Hcap t. by apply (pass_within _ _ _ _ _ _ Hcap Hpass).
  - intros -> t. rewrite (pass_count _ _ _ _ _ t Hpass). simpl.
    rewrite getitem_empty. lia.
Qed.

End PassInvariants.

(** ** The frequency table *)

Lemma float_div_by_zero c : float_div c 0 = Raise ZeroDivisionError.
Proof. reflexivity. Qed.

(** What the comprehension returns, entry by entry, and which division
    it fails on when it fails. *)
Lemma rel_freq_spec (counter : gmap string Z) total :
  match rel_freq counter total with
  | Ok table =>
      (∀ t, table !! t = counter !! t ≫= quotient total)
      ∧ (∀ t c, counter !! t = Some c → ∃ q, float_div c total = Ok q)
  | Raise e =>
      ∃ t c, counter !! t = Some c ∧ float_div c total = Raise e
  end.
Proof.
  unfold rel_freq.
  apply (map_fold_weak_ind
    (fun r (m : gmap string Z) =>
       match r with
       | Ok table =>
           (∀ t, table !! t = m !! t ≫= quotient total)
           ∧ (∀ t c, m !! t = Some c → ∃ q, float_div c total = Ok q)
       | Raise e => ∃ t c, m !! t = Some c ∧ float_div c total = Raise e
       end)).
  - split; [|by intros t c; rewrite lookup_empty].
    intros t. by rewrite !lookup_empty.
  - intros w c m r Hfresh IH. destruct r as [table|e]; simpl.
    + destruct IH as [Hlook Hdiv].
      destruct (float_div c total) as [q|e] eqn:Hq; simpl.
      * split.
        -- intros t. destruct (decide (w = t)) as [->|Hne].
           ++ rewrite !lookup_insert_eq. simpl. unfold quotient.
              by rewrite Hq.
           ++ by rewrite !lookup_insert_ne.
        -- intros t c'. destruct (decide (w = t)) as [->|Hne].
           ++ rewrite lookup_insert_eq. intros [= <-]. by exists q.
           ++ rewrite lookup_insert_ne by done. apply Hdiv.
      * exists w, c. by rewrite lookup_insert_eq.
    + destruct IH as (t & c' & Ht & Hdiv). exists t, c'.
      split; [|done]. rewrite lookup_insert_ne; [done|congruence].
Qed.

Lemma rel_freq_empty total : rel_freq ∅ total = Ok ∅.
Proof. apply map_fold_empty. Qed.

(** Dividing by zero entries fails on the first item, whichever it is. *)
Lemma rel_freq_total_zero (counter : gmap string Z) :
  counter ≠ ∅ → rel_freq counter 0 = Raise ZeroDivisionError.
Proof.
  intros Hne. pose proof (rel_freq_spec counter 0) as Hspec.
  destruct (rel_freq counter 0) as [table|e].
  - destruct Hspec as [_ Hdiv].
    destruct (map_choose _ Hne) as (t & c & Ht).
    destruct (Hdiv t c Ht) as [q Hq]. by rewrite float_div_by_zero in Hq.
  - destruct Hspec as (t & c & _ & Hdiv).
    rewrite float_div_by_zero in Hdiv. by inversion Hdiv.
Qed.

Lemma Qplus_swap (q1 q2 y : Q) : (q1 + (q2 + y) = q2 + (q1 + y))%Q.
Proof.
  destruct q1 as [n1 d1], q2 as [n2 d2], y as [ny dy].
  unfold Qplus. cbn [Qnum Qden]. f_equal; [|lia].
  rewrite !Pos2Z.inj_mul. ring.
Qed.

Lemma sum_floats_insert_fresh (m : gmap string Q) key q :
  m !! key = None → sum_floats (<[key := q]> m) = (q + sum_floats m)%Q.
Proof.
  intros Hnone. unfold sum_floats.
  rewrite map_fold_insert_L; [done| |done]. intros. apply Qplus_swap.
Qed.

Lemma sum_floats_error (counter : gmap string Z) total :
  0 < total →
  (∀ t c, counter !! t = Some c → 0 ≤ c ≤ total) →
  (Qabs (sum_floats (omap (quotient total) counter)
         - (sum_values counter # Z.to_pos total))
   <= Z.of_nat (size (omap (quotient total) counter)) # Z.to_pos (2 ^ 53))%Q.
Proof.
  intros Htotal. induction counter as [|t c m Hfresh IH] using map_ind;
    intros Hbound.
  - rewrite omap_empty. done.
  - destruct (float_div_error c total) as (q & Hq & Herr); [|done|].
    { apply (Hbound t). by rewrite lookup_insert_eq. }
    assert (Hquot : quotient total c = Some q) by (unfold quotient; by rewrite Hq).
    rewrite (omap_insert_Some _ _ _ _ _ Hquot).
    assert (Hfresh' : omap (quotient total) m !! t = None).
    { by rewrite lookup_omap, Hfresh. }
    rewrite sum_floats_insert_fresh, sum_values_insert_fresh by done.
    rewrite map_size_insert_None by done.
    specialize (IH (fun t' c' Ht' => Hbound t' c'
      ltac:(rewrite lookup_insert_ne; [done|congruence]))).
    set (S := sum_floats (omap (quotient total) m)) in *.
    set (T := Z.to_pos total) in *.
    assert (Heq : (q + S - (c + sum_values m # T)
                   == (q - (c # T)) + (S - (sum_values m # T)))%Q).
    { rewrite <- Qinv_plus_distr. ring. }
    rewrite Heq. eapply Qle_trans; [apply Qabs_triangle|].
    eapply Qle_trans; [apply Qplus_le_compat; [exact Herr|exact IH]|].
    rewrite Qinv_plus_distr. unfold Qle. cbn [Qnum Qden]. lia.
Qed.

(** When the comprehension returns, its table is the counter with every
    count replaced by its quotient. *)
Lemma rel_freq_Ok (counter : gmap string Z) total table :
  rel_freq counter total = Ok table →
  table = omap (quotient total) counter.
Proof.
  intros Hrel. pose proof (rel_freq_spec counter total) as Hspec.
  rewrite Hrel in Hspec. destruct Hspec as [Hlook _].
  apply map_eq. intros t. by rewrite Hlook, lookup_omap.
Qed.

Lemma sum_values_nonneg (m : gmap string Z) :
  (∀ t c, m !! t = Some c → 0 ≤ c) → 0 ≤ sum_values m.
Proof.
  induction m as [|t c m Hfresh IH] using map_ind; intros Hge.
  - by rewrite sum_values_empty.
  - rewrite sum_values_insert_fresh by done.
    pose proof (Hge t c ltac:(by rewrite lookup_insert_eq)).
    assert (0 ≤ sum_values m); [|lia].
    apply IH. intros t' c' Ht'. apply (Hge t').
    rewrite lookup_insert_ne; [done|congruence].
Qed.

(** No count exceeds the sum of counts none of which is negative. *)
Lemma value_le_sum (m : gmap string Z) t c :
  (∀ t, 0 ≤ getitem m t) → m !! t = Some c → c ≤ sum_values m.
Proof.
  intros Hge Ht. rewrite <- (insert_delete_id m t c) by done.
  rewrite sum_values_insert_fresh by apply lookup_delete_eq.
  assert (0 ≤ sum_values (delete t m)); [|lia].
  apply sum_values_nonneg. intros t' c' Ht'.
  apply lookup_delete_Some in Ht' as [_ Ht'].
  specialize (Hge t'). unfold getitem in Hge. by rewrite Ht' in Hge.
Qed.

(** With a negative cap the inner loop has no iteration. *)
Lemma clamp_negative cap n :
  cap < 0 →
  Z.to_nat (if negb (cap =? 0) && (cap <? n) then cap else n) = 0%nat.
Proof.
  intros Hcap. destruct (Z.eqb_spec cap 0); [lia|]. simpl.
  destruct (Z.ltb_spec cap n); lia.
Qed.

Section Table.
Context {R : Type} `{PRNG R}.
Implicit Types (st : state R) (row : list string).

(** [preprocess] is the pass followed by the one comprehension. *)
Lemma preprocess_Ok rows max_len cap keep_type seed out :
  preprocess (R := R) rows max_len cap keep_type seed = Ok out →
  ∃ st table,
    pass max_len cap keep_type rows (initial seed) = Ok st
    ∧ rel_freq (freq st) (Z.of_nat (length (clients_triehh st))) = Ok table
    ∧ out = (clients_triehh st, clients_sfp st, table).
Proof.
  unfold preprocess. intros Hrun.
  destruct (pass max_len cap keep_type rows (initial seed)) as [st|e]
    eqn:Hpass; [simpl in Hrun|done].
  destruct (rel_freq (freq st) (Z.of_nat (length (clients_triehh st))))
    as [table|e] eqn:Hrel; [simpl in Hrun|done].
  exists st, table. by inversion Hrun.
Qed.

(** C5.  When [preprocess] returns, the table comes from the counter as
    the pass over all the rows leaves it: a token the counter holds is
    mapped to the float [count / total], where [total] is the length of
    the first client list, and the table has no other token. *)
Theorem table_is_count_over_total rows max_len cap keep_type seed
    clients_A clients_B table :
  preprocess (R := R) rows max_len cap keep_type seed
    = Ok (clients_A, clients_B, table) →
  ∃ st,
    pass max_len cap keep_type rows (initial seed) = Ok st
    ∧ clients_A = clients_triehh st
    ∧ clients_B = clients_sfp st
    ∧ ∀ t,
        match freq st !! t with
        | Some c =>
            ∃ q, float_div c (Z.of_nat (length clients_A)) = Ok q
                 ∧ table !! t = Some q
        | None => table !! t = None
        end.
Proof.
  intros Hrun. apply preprocess_Ok in Hrun as (st & table' & Hpass & Hrel & Hout).
  inversion Hout; subst. exists st. do 3 (split; [done|]).
  intros t. pose proof (rel_freq_spec (freq st)
                          (Z.of_nat (length (clients_triehh st)))) as Hspec.
  rewrite Hrel in Hspec. destruct Hspec as [Hlook Hdiv].
  rewrite Hlook. destruct (freq st !! t) as [c|] eqn:Ht; [|done].
  destruct (Hdiv t c Ht) as [q Hq]. exists q. split; [done|].
  simpl. unfold quotient. by rewrite Hq.
Qed.

(** C6, as the code has it.  When the pass ends with no accepted
    occurrence there is no dedicated diagnostic: [preprocess] returns
    two empty client lists and an empty table when the counter has no
    key, and fails with the [ZeroDivisionError] of the first division
    otherwise. *)
Theorem no_occurrence_outcome rows max_len cap keep_type seed st :
  pass max_len cap keep_type rows (initial seed) = Ok st →
  clients_triehh st = [] →
  clients_sfp st = []
  ∧ preprocess (R := R) rows max_len cap keep_type seed =
    if decide (freq st = ∅)
    then Ok ([], [], ∅)
    else Raise ZeroDivisionError.
Proof.
  intros Hpass Hnil.
  assert (Hsfp : clients_sfp st = []).
  { destruct (pass_aligned _ _ _ _ _ _ Hpass) as [Hlen _].
    rewrite Hnil in Hlen. by destruct (clients_sfp st). }
  split; [done|]. unfold preprocess. rewrite Hpass. simpl.
  rewrite Hnil, Hsfp. simpl. case_decide as Hempty.
  - by rewrite Hempty, rel_freq_empty.
  - by rewrite rel_freq_total_zero.
Qed.

Lemma pass_negative_cap_Ok max_len cap keep_type rows st :
  cap < 0 → counts_parse keep_type rows →
  pass max_len cap keep_type rows st = Ok st.
Proof.
  intros Hcap Hparse. induction Hparse as [|row rows Hrow _ IH]; [done|].
  simpl. rewrite process_row_eq.
  destruct (surviving keep_type row) as [[curr cnt]|]; [|exact IH].
  destruct Hrow as [n ->]. simpl.
  pose proof (clamp_negative cap n Hcap) as Hclamp.
  destruct (Z.eqb_spec cap 0); [lia|]. simpl in *. rewrite Hclamp.
  exact IH.
Qed.

Lemma py_int_Raise s e : py_int s = Raise e → e = ValueError.
Proof. unfold py_int. case_match; by inversion 1. Qed.

Lemma process_row_Raise max_len cap keep_type row st e :
  cap ≤ 0 →
  process_row max_len cap keep_type row st = Raise e → e = ValueError.
Proof.
  intros Hcap. rewrite process_row_eq.
  destruct (surviving keep_type row) as [[curr cnt]|]; [|done].
  destruct (py_int cnt) as [n|e'] eqn:Hint;
    [simpl|intros [= <-]; by eapply py_int_Raise].
  destruct (Z.eqb_spec cap 0); [done|]. simpl.
  pose proof (clamp_negative cap n ltac:(lia)) as Hclamp.
  destruct (Z.eqb_spec cap 0); [lia|]. simpl in *. by rewrite Hclamp.
Qed.

Lemma pass_Raise max_len cap keep_type rows st e :
  cap ≤ 0 →
  pass max_len cap keep_type rows st = Raise e → e = ValueError.
Proof.
  intros Hcap. revert st. induction rows as [|row rows IH]; intros st; [done|].
  simpl. destruct (process_row max_len cap keep_type row st) as [st1|e1]
    eqn:Hrow; simpl.
  - apply IH.
  - intros [= <-]. by eapply process_row_Raise.
Qed.

(** C7, as the code has it.  A negative cap is not reported: the pass
    reads every row and emits nothing.  [preprocess] returns three empty
    outputs when the counts of the surviving rows are integers, and the
    only failure it can end with is the [ValueError] of a count that is
    not one. *)
Theorem negative_cap_emits_nothing rows max_len cap keep_type seed :
  cap < 0 →
  (counts_parse keep_type rows →
   preprocess (R := R) rows max_len cap keep_type seed = Ok ([], [], ∅))
  ∧ (∀ out, preprocess (R := R) rows max_len cap keep_type seed = Ok out →
            out = ([], [], ∅))
  ∧ (∀ e, preprocess (R := R) rows max_len cap keep_type seed = Raise e →
          e = ValueError).
Proof.
  intros Hcap. repeat split.
  - intros Hparse. unfold preprocess.
    by rewrite pass_negative_cap_Ok.
  - intros out Hrun.
    apply preprocess_Ok in Hrun as (st & table & Hpass & Hrel & ->).
    apply pass_negative_cap in Hpass as ->; [|done].
    simpl in *. rewrite rel_freq_empty in Hrel. by inversion Hrel.
  - intros e. unfold preprocess.
    destruct (pass max_len cap keep_type rows (initial seed)) as [st|e1]
      eqn:Hpass; simpl.
    + apply pass_negative_cap in Hpass as ->; [|done].
      simpl. by rewrite rel_freq_empty.
    + intros [= <-]. eapply pass_Raise; [|exact Hpass]. lia.
Qed.

(** C10.  A row with four fields and the kind asked for whose count is
    not an integer literal ends the run with [ValueError], raised by
    [int], whatever follows it; a row without four fields or of another
    kind is skipped, whatever its count field holds. *)
Theorem bad_count_aborts rows row rows' max_len cap keep_type seed st
    curr cnt :
  pass max_len cap keep_type rows (initial seed) = Ok st →
  (surviving keep_type row = Some (curr, cnt) →
   (∀ n, py_int cnt ≠ Ok n) →
   py_int cnt = Raise ValueError
   ∧ preprocess (R := R) (rows ++ row :: rows') max_len cap keep_type seed
     = Raise ValueError)
  ∧ (surviving keep_type row = None →
     process_row max_len cap keep_type row st = Ok st).
Proof.
  intros Hpass. split.
  - intros Hsurv Hbad.
    assert (Hint : py_int cnt = Raise ValueError).
    { destruct (py_int cnt) as [n|e] eqn:Hint; [by destruct (Hbad n)|].
      by rewrite (py_int_Raise _ _ Hint). }
    split; [done|]. unfold preprocess.
    rewrite pass_app, Hpass. simpl.
    by rewrite process_row_eq, Hsurv, Hint.
  - intros Hsurv. by rewrite process_row_eq, Hsurv.
Qed.

(** Whatever the cap, when the counts of the surviving rows are not
    negative under a disabled cap, the pass leaves no negative count. *)
Lemma pass_nonneg rows max_len cap keep_type seed st :
  pass max_len cap keep_type rows (initial seed) = Ok st →
  (cap = 0 → nonneg_counts keep_type rows) →
  ∀ t, 0 ≤ getitem (freq st) t.
Proof.
  intros Hpass Hcounts.
  destruct (Z.lt_trichotomy cap 0) as [Hneg|[->|Hpos]].
  - apply pass_negative_cap in Hpass as ->; [|done].
    intros t. simpl. by rewrite getitem_empty.
  - by destruct (pass_exact _ _ _ _ _ _ (Z.le_refl 0) (Hcounts eq_refl)
                  Hpass) as [_ ?].
  - intros t. by apply (pass_within _ _ _ _ _ _ Hpos Hpass).
Qed.

(** The sum of the table in every mode.  When [preprocess] returns with at least one
    accepted occurrence, the values of the table add up, in exact
    arithmetic, to [1] within [n * 2^-53] ([n] the number of tokens) if
    the cap is disabled and no surviving row has a negative count; under
    a positive cap they add up to at most [1] within that tolerance, and
    can stay well below. *)
Theorem table_sum rows max_len cap keep_type seed
    clients_A clients_B table :
  preprocess (R := R) rows max_len cap keep_type seed
    = Ok (clients_A, clients_B, table) →
  (0 < length clients_A)%nat →
  (cap ≤ 0 → nonneg_counts keep_type rows →
   (Qabs (sum_floats table - 1)
    <= Z.of_nat (size table) # Z.to_pos (2 ^ 53))%Q)
  ∧ (0 < cap →
     (sum_floats table
      <= 1 + (Z.of_nat (size table) # Z.to_pos (2 ^ 53)))%Q).
Proof.
  intros Hrun Hlen.
  apply preprocess_Ok in Hrun as (st & table' & Hpass & Hrel & Hout).
  inversion Hout; subst; clear Hout.
  apply rel_freq_Ok in Hrel as ->.
  set (total := Z.of_nat (length (clients_triehh st))) in *.
  assert (Htotal : 0 < total) by (unfold total; lia).
  assert (Hsum : sum_values (freq st) ≤ total)
    by (by destruct (pass_aligned _ _ _ _ _ _ Hpass) as [_ ?]).
  assert (Herr : (cap = 0 → nonneg_counts keep_type rows) →
    (Qabs (sum_floats (omap (quotient total) (freq st))
           - (sum_values (freq st) # Z.to_pos total))
     <= Z.of_nat (size (omap (quotient total) (freq st)))
        # Z.to_pos (2 ^ 53))%Q).
  { intros Hcounts. apply sum_floats_error; [done|]. intros t c Ht.
    pose proof (pass_nonneg _ _ _ _ _ _ Hpass Hcounts) as Hge.
    pose proof (value_le_sum _ _ _ Hge Ht).
    specialize (Hge t). unfold getitem in Hge. rewrite Ht in Hge.
    simpl in Hge. lia. }
  split.
  - intros Hcap Hcounts. specialize (Herr (fun _ => Hcounts)).
    destruct (pass_exact _ _ _ _ _ _ Hcap Hcounts Hpass) as [Heq _].
    fold total in Heq. rewrite Heq in Herr.
    assert (Hone : (total # Z.to_pos total == 1)%Q).
    { unfold Qeq. cbn [Qnum Qden]. rewrite Z2Pos.id by done. lia. }
    by rewrite Hone in Herr.
  - intros Hcap. specialize (Herr ltac:(lia)).
    apply Qabs_Qle_condition in Herr as [_ Hupper].
    apply Qle_minus_iff in Hupper.
    apply Qle_minus_iff.
    eapply Qle_trans; [exact Hupper|].
    assert (Hfrac : (sum_values (freq st) # Z.to_pos total <= 1)%Q).
    { unfold Qle. cbn [Qnum Qden]. rewrite Z2Pos.id by done. lia. }
    apply Qle_minus_iff in Hfrac.
    set (S := sum_floats _) in *. set (tol := (_ # Z.to_pos (2 ^ 53))%Q) in *.
    set (f := (sum_values (freq st) # Z.to_pos total)%Q) in *.
    assert (Heq : (1 + tol + - S == (tol + - (S - f)) + (1 + - f))%Q) by ring.
    rewrite Heq. rewrite <- (Qplus_0_r (tol + - (S - f))) at 1.
    by apply Qplus_le_compat; [apply Qle_refl|].
Qed.

End Table.

(** ** Two runs *)

Section TwoRuns.
Context {R1 R2 : Type} {H1 : PRNG R1} {H2 : PRNG R2}.

Lemma same_draws_step (g1 : R1) (g2 : R2) :
  same_draws g1 g2 →
  (random g1).1 = (random g2).1 ∧ same_draws (random g1).2 (random g2).2.
Proof.
  intros Hsame. split.
  - specialize (Hsame 1%nat). simpl in Hsame. by inversion Hsame.
  - intros n. specialize (Hsame (S n)). simpl in Hsame. by inversion Hsame.
Qed.

Lemma reservoir_extend_same_draws elem k (n : nat) :
  ∀ container (g1 : R1) (g2 : R2),
    Z.to_nat (getitem container elem - k + 1) = n →
    same_draws g1 g2 →
    same_outcome
      (fun o1 o2 => o1.1 = o2.1 ∧ same_draws o1.2 o2.2)
      (reservoir_extend container elem k g1)
      (reservoir_extend container elem k g2).
Proof.
  induction n as [|n IH]; intros container g1 g2 Hn Hsame;
    rewrite (reservoir_extend_eq container elem k g1),
            (reservoir_extend_eq container elem k g2).
  - by rewrite !decide_False by lia.
  - rewrite !decide_True by lia.
    destruct (float_div k (k + 1)) as [ratio|e]; simpl; [|done].
    destruct (same_draws_step g1 g2 Hsame) as [<- Hnext].
    destruct (float_lt (float_of_draw (random g1).1) ratio); [done|].
    apply IH; [|done]. rewrite getitem_iadd. lia.
Qed.

Lemma sample_loop_same_draws curr cap max_len (n : nat) :
  ∀ (st1 : state R1) (st2 : state R2),
    same_state st1 st2 →
    same_outcome same_state
      (sample_loop n curr cap max_len st1)
      (sample_loop n curr cap max_len st2).
Proof.
  induction n as [|n IH]; intros st1 st2 Hst; [done|].
  destruct Hst as (Hfreq & HA & HB & Hrng). simpl.
  pose proof (reservoir_extend_same_draws curr cap _ (freq st1)
                (rng st1) (rng st2) eq_refl Hrng) as Hcall.
  rewrite <- Hfreq.
  destruct (reservoir_extend (freq st1) curr cap (rng st1))
    as [[[b1 c1] g1]|e1],
    (reservoir_extend (freq st1) curr cap (rng st2))
    as [[[b2 c2] g2]|e2]; simpl in *; try done.
  destruct Hcall as [[= <- <-] Hg].
  apply IH. destruct b1; repeat split; simpl; congruence.
Qed.

Lemma process_row_same_draws max_len cap keep_type row
    (st1 : state R1) (st2 : state R2) :
  same_state st1 st2 →
  same_outcome same_state
    (process_row max_len cap keep_type row st1)
    (process_row max_len cap keep_type row st2).
Proof.
  intros Hst. rewrite !process_row_eq.
  destruct (surviving keep_type row) as [[curr cnt]|]; [|done].
  destruct (py_int cnt) as [n|e]; [simpl|done].
  destruct (negb (cap =? 0)); [by apply sample_loop_same_draws|].
  destruct Hst as (Hfreq & HA & HB & Hrng).
  repeat split; simpl; congruence.
Qed.

Lemma pass_same_draws max_len cap keep_type rows :
  ∀ (st1 : state R1) (st2 : state R2),
    same_state st1 st2 →
    same_outcome same_state
      (pass max_len cap keep_type rows st1)
      (pass max_len cap keep_type rows st2).
Proof.
  induction rows as [|row rows IH]; intros st1 st2 Hst; [done|]. simpl.
  pose proof (process_row_same_draws max_len cap keep_type row st1 st2 Hst)
    as Hrow.
  destruct (process_row max_len cap keep_type row st1) as [s1|e1],
    (process_row max_len cap keep_type row st2) as [s2|e2];
    simpl in *; try done.
  by apply IH.
Qed.

(** The outputs depend on the generator through its draws only. *)
Lemma preprocess_same_draws rows max_len cap keep_type seed1 seed2 :
  same_draws (Random seed1 : R1) (Random seed2 : R2) →
  preprocess (R := R1) rows max_len cap keep_type seed1
  = preprocess (R := R2) rows max_len cap keep_type seed2.
Proof.
  intros Hsame. unfold preprocess.
  pose proof (pass_same_draws max_len cap keep_type rows
                (initial seed1) (initial seed2)) as Hpass.
  destruct (pass max_len cap keep_type rows (initial seed1)) as [s1|e1],
    (pass max_len cap keep_type rows (initial seed2)) as [s2|e2];
    simpl in *; try (by destruct Hpass); try (by f_equal; apply Hpass).
  destruct Hpass as (-> & -> & -> & _); [done|done].
Qed.

End TwoRuns.

(** A generator that counts its draws hands out the draws of the one it
    wraps. *)
Lemma same_draws_counting {R : Type} {H : PRNG R} (g : R) (c : nat) :
  same_draws (H2 := counting) g (g, c).
Proof.
  intros n. revert g c. induction n as [|n IH]; intros g c; [done|].
  simpl. f_equal. apply IH.
Defined.

(** C9.  Two runs on the same rows, with the same configuration and the
    same seed, return the same two client lists and the same table, also
    when each run has a generator object of its own, of whatever kind
    and internal state: all a run takes from its generator is the draws
    it hands out from that seed, one after the other, and nothing else
    in the run varies. *)
Theorem preprocess_deterministic {R1 R2 : Type} {H1 : PRNG R1} {H2 : PRNG R2}
    rows max_len cap keep_type seed :
  same_draws (Random seed : R1) (Random seed : R2) →
  preprocess (R := R1) rows max_len cap keep_type seed
  = preprocess (R := R2) rows max_len cap keep_type seed.
Proof.
  intros Hsame.
  assert (Hinit : same_state (initial (R := R1) seed) (initial (R := R2) seed))
    by (by repeat split).
  pose proof (pass_same_draws max_len cap keep_type rows _ _ Hinit) as Hpass.
  unfold preprocess.
  destruct (pass max_len cap keep_type rows (initial (R := R1) seed))
    as [s1|e1],
    (pass max_len cap keep_type rows (initial (R := R2) seed)) as [s2|e2];
    simpl in *; try done; [|by subst].
  by destruct Hpass as (-> & -> & -> & _).
Qed.

(** ** Runs with the generator of CPython *)

(** C1 on two rows for the same token under [cap = 1] and [seed = 0]:
    the first draw of the generator, [0.844...], does not reject, so the
    second occurrence is appended to both lists while the counter goes
    down and up again.  Two clients are written and the counts add up to
    one. *)
Lemma counter_sum_below_length :
  ∃ st : state MT19937.mt_state,
    pass 16 1 (Some "link"%string) twice_A (initial 0) = Ok st
    ∧ clients_triehh st = ["A$"; "A$"]%string
    ∧ clients_sfp st = ["A$$$$$$$$$$$$$$$"; "A$$$$$$$$$$$$$$$"]%string
    ∧ sum_values (freq st) = 1
    ∧ Z.of_nat (length (clients_triehh st)) ≠ sum_values (freq st).
Proof.
  eexists. split; [vm_compute; reflexivity|].
  repeat split; vm_compute; congruence.
Qed.

Lemma A3_B1_nonneg : nonneg_counts (Some "link"%string) A3_B1.
Proof. repeat constructor; vm_compute; discriminate. Defined.

Lemma lengths_and_counter_sum_witness :
  length (clients_triehh A3_B1_uncapped) = length (clients_sfp A3_B1_uncapped)
  ∧ sum_values (freq A3_B1_uncapped)
    ≤ Z.of_nat (length (clients_triehh A3_B1_uncapped))
  ∧ sum_values (freq A3_B1_uncapped)
    = Z.of_nat (length (clients_triehh A3_B1_uncapped)).
Proof.
  destruct (lengths_and_counter_sum A3_B1 16 0 (Some "link"%string) 0
              A3_B1_uncapped) as (Hlen & Hle & Heq).
  - vm_compute. reflexivity.
  - split; [exact Hlen|]. split; [exact Hle|].
    apply Heq; [lia|exact A3_B1_nonneg].
Defined.

Lemma reservoir_extend_thinning_witness :
  ∃ out,
    reservoir_extend (<["A"%string := 1]> ∅) "A" 1
      (Random 0 : MT19937.mt_state) = Ok out
    ∧ thinning "A" 1 (<["A"%string := 1]> ∅) (Random 0) out.
Proof.
  apply (reservoir_extend_thinning (R := MT19937.mt_state)). lia.
Defined.

Lemma counter_capped_or_cumulative_witness :
  getitem (freq A3_B1_uncapped) "A"
  = cumulative_count (Some "link"%string) A3_B1 "A".
Proof.
  apply (counter_capped_or_cumulative A3_B1 16 0 (Some "link"%string) 0
           A3_B1_uncapped).
  - vm_compute. reflexivity.
  - reflexivity.
Defined.

Lemma table_is_count_over_total_witness :
  ∃ st : state MT19937.mt_state,
    pass 16 0 (Some "link"%string) A3_B1 (initial 0) = Ok st
    ∧ clients_triehh A3_B1_uncapped = clients_triehh st
    ∧ clients_sfp A3_B1_uncapped = clients_sfp st
    ∧ ∀ t,
        match freq st !! t with
        | Some c =>
            ∃ q, float_div c
                   (Z.of_nat (length (clients_triehh A3_B1_uncapped))) = Ok q
                 ∧ A3_B1_table !! t = Some q
        | None => A3_B1_table !! t = None
        end.
Proof.
  apply (table_is_count_over_total A3_B1 16 0 (Some "link"%string) 0).
  vm_compute. reflexivity.
Defined.

(** The table of the scenario holds three quarters and one quarter. *)
Example A3_B1_table_values :
  (A3_B1_table !! "A"%string = Some (ldexp (3 * 2 ^ 51) (-53))
   ∧ ldexp (3 * 2 ^ 51) (-53) == 3 # 4)%Q
  ∧ (A3_B1_table !! "B"%string = Some (ldexp (2 ^ 52) (-54))
     ∧ ldexp (2 ^ 52) (-54) == 1 # 4)%Q.
Proof. repeat split. Qed.

Lemma no_occurrence_outcome_witness :
  preprocess (R := MT19937.mt_state) zero_count 16 0 (Some "link"%string) 0
  = Raise ZeroDivisionError.
Proof.
  destruct (no_occurrence_outcome (R := MT19937.mt_state) zero_count 16 0
              (Some "link"%string) 0 zero_count_uncapped) as [_ Hrun].
  - vm_compute. reflexivity.
  - reflexivity.
  - rewrite Hrun. reflexivity.
Defined.

(** No row at all: the run ends normally, with three empty outputs.  One
    row of count zero without a cap: the run ends with the
    [ZeroDivisionError] of [0 / 0]. *)
Lemma no_occurrence_no_diagnostic :
  preprocess (R := MT19937.mt_state) [] 16 5000 (Some "link"%string) 0
  = Ok ([], [], ∅)
  ∧ preprocess (R := MT19937.mt_state) zero_count 16 0
      (Some "link"%string) 0
    = Raise ZeroDivisionError.
Proof. split; vm_compute; reflexivity. Qed.

Lemma A3_B1_counts_parse : counts_parse (Some "link"%string) A3_B1.
Proof. repeat constructor; eexists; vm_compute; reflexivity. Defined.

Lemma negative_cap_emits_nothing_witness :
  preprocess (R := MT19937.mt_state) A3_B1 16 (-1) (Some "link"%string) 0
  = Ok ([], [], ∅).
Proof.
  apply (negative_cap_emits_nothing (R := MT19937.mt_state)); [lia|].
  exact A3_B1_counts_parse.
Defined.

(** A cap of [-5] on the command line: the run ends normally and every
    output is empty. *)
Lemma negative_cap_not_reported :
  preprocess (R := MT19937.mt_state) A3_B1 16 (-5) (Some "link"%string) 0
  = Ok ([], [], ∅).
Proof. vm_compute. reflexivity. Qed.

Lemma bad_count_aborts_witness :
  py_int "abc" = Raise ValueError
  ∧ preprocess (R := MT19937.mt_state) (A3_B1 ++ bad_count :: twice_A) 16
      5000 (Some "link"%string) 0
    = Raise ValueError.
Proof.
  eapply (bad_count_aborts (R := MT19937.mt_state) A3_B1 bad_count twice_A
            16 5000 (Some "link"%string) 0).
  - vm_compute. reflexivity.
  - reflexivity.
  - intros n. vm_compute. discriminate.
Defined.

Lemma preprocess_deterministic_witness :
  preprocess (R := MT19937.mt_state) twice_A 16 1 (Some "link"%string) 0
  = preprocess (R := MT19937.mt_state * nat) (H := counting) twice_A 16 1
      (Some "link"%string) 0.
Proof.
  apply (preprocess_deterministic (R1 := MT19937.mt_state)
           (R2 := MT19937.mt_state * nat) (H2 := counting)).
  exact (same_draws_counting (H := mersenne_twister)
           (Random (PRNG := mersenne_twister) 0) 0%nat).
Defined.

Lemma table_sum_witness :
  (Qabs (sum_floats A3_B1_table - 1)
   <= Z.of_nat (size A3_B1_table) # Z.to_pos (2 ^ 53))%Q.
Proof.
  apply (table_sum (R := MT19937.mt_state) A3_B1 16 0 (Some "link"%string) 0
           (clients_triehh A3_B1_uncapped) (clients_sfp A3_B1_uncapped)).
  - vm_compute. reflexivity.
  - simpl. lia.
  - lia.
  - exact A3_B1_nonneg.
Defined.

(** C4 on the same run, to its end: two clients are written, and a
    table whose only value is the float [0.5]; the values of the table
    add up to one half. *)
Lemma capped_table_sums_to_half :
  preprocess (R := MT19937.mt_state) twice_A 16 1 (Some "link"%string) 0
  = Ok (["A$"; "A$"]%string,
        ["A$$$$$$$$$$$$$$$"; "A$$$$$$$$$$$$$$$"]%string,
        {["A"%string := ldexp (2 ^ 52) (-53)]})
  ∧ (sum_floats {["A"%string := ldexp (2 ^ 52) (-53)]} == 1 # 2)%Q
  ∧ ¬ (sum_floats {["A"%string := ldexp (2 ^ 52) (-53)]} == 1)%Q.
Proof.
  split; [vm_compute; reflexivity|]. split; [vm_compute; reflexivity|].
  vm_compute. discriminate.
Qed.

(** * Further properties *)

(** ** The encoders, in full *)

Lemma get_append_l (s t : string) (i : nat) :
  (i < String.length s)%nat → String.get i (s +:+ t) = String.get i s.
Proof.
  revert i. induction s as [|c s IH]; intros i Hi; simpl in Hi; [lia|].
  rewrite append_cons. destruct i as [|i]; simpl; [done|]. apply IH. lia.
Qed.

Lemma get_substring_0 (s : string) (n i : nat) :
  (i < n)%nat → String.get i (substring 0 n s) = String.get i s.
Proof.
  revert n i. induction s as [|c s IH]; intros n i Hi.
  - by destruct n.
  - destruct n as [|n]; [lia|]. simpl.
    destruct i as [|i]; [done|]. apply IH. lia.
Qed.

Lemma length_substring_0_min (s : string) (n : nat) :
  String.length (substring 0 n s) = Nat.min n (String.length s).
Proof.
  destruct (Nat.le_ge_cases n (String.length s)).
  - rewrite length_substring_0 by done. lia.
  - rewrite substring_all by done. lia.
Qed.

(** X1.  For a width [0 <= L] the second encoding has exactly [L]
    characters: the characters of the token as far as they fit, in their
    order, and ['$'] in every place after them. *)
Theorem truncate_or_pad_shape (s : string) (L : Z) (i : nat) :
  0 ≤ L →
  String.length (truncate_or_pad s L) = Z.to_nat L
  ∧ ((i < String.length s)%nat → Z.of_nat i < L →
     String.get i (truncate_or_pad s L) = String.get i s)
  ∧ ((String.length s ≤ i)%nat → Z.of_nat i < L →
     String.get i (truncate_or_pad s L) = Some "$"%char).
Proof.
  intros HL. split; [by apply length_truncate_or_pad|]. split.
  - intros Hi HiL.
    destruct (Z_lt_le_dec (Z.of_nat (String.length s)) L).
    + rewrite truncate_or_pad_short by done. by apply get_append_l.
    + rewrite truncate_or_pad_long by lia. apply get_substring_0. lia.
  - intros Hi HiL. rewrite truncate_or_pad_short by lia.
    replace i with (String.length s + (i - String.length s))%nat by lia.
    rewrite get_append_r. apply get_string_rep. lia.
Qed.

Lemma truncate_or_pad_shape_witness :
  String.length (truncate_or_pad "Apollo" 4) = 4%nat
  ∧ String.get 3 (truncate_or_pad "Apollo" 4) = String.get 3 "Apollo".
Proof.
  destruct (truncate_or_pad_shape "Apollo" 4 3 ltac:(lia)) as (Hlen & Hget & _).
  split; [exact Hlen|]. apply Hget; simpl; lia.
Defined.

(** X2.  A negative width that fits a machine word is not refused: the
    token loses its last [-L] characters and nothing is padded, so the
    result is empty for a token of [-L] characters or fewer. *)
Theorem truncate_or_pad_negative (s : string) (L : Z) :
  - 2 ^ 63 ≤ L < 0 →
  truncate_or_pad s L = substring 0 (String.length s - Z.to_nat (- L)) s
  ∧ String.length (truncate_or_pad s L)
    = (String.length s - Z.to_nat (- L))%nat.
Proof.
  intros [_ HL].
  assert (Heq : truncate_or_pad s L
                = substring 0 (String.length s - Z.to_nat (- L)) s).
  { unfold truncate_or_pad, ljust, slice_to.
    destruct (Z.ltb_spec L 0) as [_|?]; [|lia].
    replace (Z.to_nat (Z.of_nat (String.length s) + L))
      with (String.length s - Z.to_nat (- L))%nat by lia.
    replace (Z.to_nat (L - _)) with 0%nat by lia.
    apply append_empty_r. }
  split; [done|]. rewrite Heq, length_substring_0_min. lia.
Qed.

Lemma truncate_or_pad_negative_witness :
  truncate_or_pad "Apollo" (-2) = "Apol"%string
  ∧ String.length (truncate_or_pad "Apollo" (-2)) = 4%nat.
Proof. apply (truncate_or_pad_negative "Apollo" (-2)). lia. Defined.

Lemma substring_0_append (s t : string) :
  substring 0 (String.length s) (s +:+ t) = s.
Proof.
  induction s as [|c s IH]; [by destruct t|].
  rewrite append_cons. simpl. by rewrite IH.
Qed.

(** X3.  The first encoding loses nothing: dropping its last character
    gives the token back, so two tokens never share a first encoding. *)
Theorem add_end_symbol_round_trip (s s' : string) :
  substring 0 (String.length (add_end_symbol s) - 1) (add_end_symbol s) = s
  ∧ String.length (add_end_symbol s) = S (String.length s)
  ∧ (add_end_symbol s = add_end_symbol s' → s = s').
Proof.
  assert (Hlen : ∀ x, String.length (add_end_symbol x) = S (String.length x)).
  { intros x. unfold add_end_symbol. rewrite length_append. simpl. lia. }
  assert (Hback : ∀ x,
    substring 0 (String.length (add_end_symbol x) - 1) (add_end_symbol x) = x).
  { intros x. rewrite Hlen. replace (S (String.length x) - 1)%nat
      with (String.length x) by lia. apply substring_0_append. }
  split; [apply Hback|]. split; [apply Hlen|].
  intros Heq. rewrite <- (Hback s), <- (Hback s'). by rewrite Heq.
Qed.

Lemma add_end_symbol_round_trip_witness :
  "Apollo"%string = "Apollo"%string.
Proof.
  apply (add_end_symbol_round_trip "Apollo" "Apollo"). reflexivity.
Defined.

(** X4.  Encoding twice at the same width [0 <= L] changes nothing. *)
Theorem truncate_or_pad_idempotent (s : string) (L : Z) :
  0 ≤ L →
  truncate_or_pad (truncate_or_pad s L) L = truncate_or_pad s L.
Proof.
  intros HL. rewrite (truncate_or_pad_long (truncate_or_pad s L))
    by (rewrite length_truncate_or_pad by done; lia).
  apply substring_all. rewrite length_truncate_or_pad by done. lia.
Qed.

Lemma truncate_or_pad_idempotent_witness :
  truncate_or_pad (truncate_or_pad "Io" 4) 4 = truncate_or_pad "Io" 4.
Proof. apply truncate_or_pad_idempotent. lia. Defined.

(** ** The sampler, case by case *)

Section SamplerCases.
Context {R : Type} `{PRNG R}.

Lemma iadd_down_up (container : gmap string Z) elem :
  getitem container elem ≠ 0 →
  iadd (iadd container elem (-1)) elem 1 = container.
Proof.
  intros Hne. unfold iadd at 1. rewrite getitem_iadd. unfold iadd.
  rewrite insert_insert_eq. apply insert_id.
  unfold getitem in *. destruct (container !! elem) as [c|]; simpl in *.
  - f_equal. lia.
  - done.
Qed.

(** X5.  A call under a cap [0 < k] on a counter that is not above the
    cap: below the cap the occurrence is accepted, the count grows by one
    and no draw is made; at the cap exactly one draw is made, and the
    counter is left as it was whether the draw rejects or not. *)
Theorem reservoir_extend_within container elem k (rng : R) :
  0 < k →
  getitem container elem ≤ k →
  reservoir_extend container elem k rng =
  if decide (getitem container elem < k)
  then Ok (true, iadd container elem 1, rng)
  else if rejects k (random rng).1
       then Ok (false, container, (random rng).2)
       else Ok (true, container, (random rng).2).
Proof.
  intros Hk Hle. rewrite reservoir_extend_step by done.
  destruct (decide (getitem container elem < k)) as [Hlt|Hge].
  - by rewrite decide_False by lia.
  - rewrite decide_True by lia.
    destruct (rejects k (random rng).1); [done|].
    rewrite reservoir_extend_step by done.
    rewrite decide_False by (rewrite getitem_iadd; lia).
    by rewrite iadd_down_up by lia.
Qed.

Lemma reservoir_extend_other_tokens_n elem k (n : nat) :
  ∀ container (rng : R) accepted freq' rng' t,
    Z.to_nat (getitem container elem - k + 1) = n →
    reservoir_extend container elem k rng = Ok (accepted, freq', rng') →
    t ≠ elem →
    freq' !! t = container !! t.
Proof.
  induction n as [|n IH];
    intros container rng accepted freq' rng' t Hn Hcall Hne;
    rewrite reservoir_extend_eq in Hcall.
  - rewrite decide_False in Hcall by lia. inversion Hcall; subst.
    unfold iadd. by rewrite lookup_insert_ne.
  - rewrite decide_True in Hcall by lia.
    destruct (float_div k (k + 1)) as [ratio|e]; [simpl in Hcall|done].
    destruct (float_lt (float_of_draw (random rng).1) ratio).
    + by inversion Hcall; subst.
    + apply (IH _ _ _ _ _ t) in Hcall;
        [|rewrite getitem_iadd; lia|done].
      rewrite Hcall. unfold iadd. by rewrite lookup_insert_ne.
Qed.

(** X6.  Whatever the cap, a call that returns has changed the entry of
    no token but its own. *)
Theorem reservoir_extend_other_tokens container elem k (rng : R)
    accepted freq' rng' t :
  reservoir_extend container elem k rng = Ok (accepted, freq', rng') →
  t ≠ elem →
  freq' !! t = container !! t.
Proof. by eapply reservoir_extend_other_tokens_n. Qed.

Lemma float_lt_zero (a : N) : float_lt (float_of_draw a) 0 = false.
Proof.
  unfold float_lt, float_of_draw, Qle_bool. cbn [Qnum Qden].
  apply negb_false_iff, Z.leb_le. lia.
Qed.

Lemma reservoir_extend_zero_cap_n elem (n : nat) :
  ∀ container (rng : R),
    getitem container elem = Z.of_nat n - 1 →
    reservoir_extend container elem 0 rng
    = Ok (true, <[elem := 0]> container, advance n rng).
Proof.
  induction n as [|n IH]; intros container rng Hn;
    rewrite reservoir_extend_eq.
  - rewrite decide_False by lia. unfold iadd. rewrite Hn. done.
  - rewrite decide_True by lia.
    change (float_div 0 (0 + 1)) with (Ok 0%Q : result Q). simpl.
    rewrite float_lt_zero.
    rewrite IH by (rewrite getitem_iadd; lia).
    unfold iadd. by rewrite insert_insert_eq.
Qed.

(** X7.  With [k = 0] a call never rejects: on a count [c >= 0] it makes
    [c + 1] draws, ignores them all, leaves the count at zero and returns
    [True]. *)
Theorem reservoir_extend_zero_cap container elem (rng : R) :
  0 ≤ getitem container elem →
  reservoir_extend container elem 0 rng
  = Ok (true, <[elem := 0]> container,
        advance (Z.to_nat (getitem container elem + 1)) rng).
Proof. intros Hge. apply reservoir_extend_zero_cap_n. lia. Qed.

(** X8.  With [k = -1] a call on a count of [-1] or more fails with the
    [ZeroDivisionError] of [k / (k + 1)]; in particular on every token
    the counter does not hold yet. *)
Theorem reservoir_extend_minus_one container elem (rng : R) :
  -1 ≤ getitem container elem →
  reservoir_extend container elem (-1) rng = Raise ZeroDivisionError.
Proof.
  intros Hge. rewrite reservoir_extend_eq. by rewrite decide_True by done.
Qed.

End SamplerCases.

Lemma reservoir_extend_within_witness :
  reservoir_extend (<["A"%string := 1]> ∅) "A" 1 (Random 0 : MT19937.mt_state)
  = if decide (getitem (<["A"%string := 1]> ∅) "A" < 1)
    then Ok (true, iadd (<["A"%string := 1]> ∅) "A" 1, Random 0)
    else if rejects 1 (random (Random 0 : MT19937.mt_state)).1
         then Ok (false, <["A"%string := 1]> ∅, (random (Random 0)).2)
         else Ok (true, <["A"%string := 1]> ∅, (random (Random 0)).2).
Proof.
  apply (reservoir_extend_within (R := MT19937.mt_state)); [lia|].
  vm_compute. discriminate.
Defined.

Lemma reservoir_extend_other_tokens_witness :
  (<["A"%string := 1]> (<["B"%string := 1]> ∅) : gmap string Z) !! "B"%string
  = (<["B"%string := 1]> ∅ : gmap string Z) !! "B"%string.
Proof.
  apply (reservoir_extend_other_tokens (R := MT19937.mt_state)
           (<["B"%string := 1]> ∅) "A" 1 (Random 0) true _ (Random 0) "B").
  - vm_compute. reflexivity.
  - discriminate.
Defined.

Lemma reservoir_extend_zero_cap_witness :
  reservoir_extend (<["A"%string := 2]> ∅) "A" 0 (Random 0 : MT19937.mt_state)
  = Ok (true, <["A"%string := 0]> (<["A"%string := 2]> ∅),
        advance (Z.to_nat (getitem (<["A"%string := 2]> ∅) "A" + 1))
          (Random 0)).
Proof.
  apply (reservoir_extend_zero_cap (R := MT19937.mt_state)).
  vm_compute. discriminate.
Defined.

Lemma reservoir_extend_minus_one_witness :
  reservoir_extend ∅ "A" (-1) (Random 0 : MT19937.mt_state)
  = Raise ZeroDivisionError.
Proof.
  apply (reservoir_extend_minus_one (R := MT19937.mt_state)).
  vm_compute. discriminate.
Defined.

(** ** What a row appends *)

Section Appends.
Context {R : Type} `{PRNG R}.
Implicit Types (st : state R) (row : list string).

(** The inner loop appends the two encodings of its token, the same
    number of times to both lists, once per iteration at most. *)
Lemma sample_loop_appends curr cap max_len (n : nat) :
  ∀ st st',
    sample_loop n curr cap max_len st = Ok st' →
    ∃ m : nat,
      (m ≤ n)%nat
      ∧ clients_triehh st'
        = clients_triehh st ++ replicate m (add_end_symbol curr)
      ∧ clients_sfp st'
        = clients_sfp st ++ replicate m (truncate_or_pad curr max_len).
Proof.
  induction n as [|n IH]; intros st st' Hloop; simpl in Hloop.
  - inversion Hloop; subst. exists 0%nat. by rewrite !app_nil_r.
  - destruct (reservoir_extend (freq st) curr cap (rng st))
      as [[[accepted freq'] rng']|e]; [simpl in Hloop|done].
    apply IH in Hloop as (m & Hm & HA & HB). destruct accepted; simpl in *.
    + exists (S m). split; [lia|]. rewrite HA, HB.
      by rewrite <- !app_assoc.
    + exists m. split; [lia|done].
Qed.

(** Every row appends, to both lists and the same number of times, the
    two encodings of one token; a row that appends anything survives
    the filter, and its clamped count bounds what it appends. *)
Lemma process_row_appends max_len cap keep_type row st st' :
  process_row max_len cap keep_type row st = Ok st' →
  ∃ (curr : string) (m : nat),
    clients_triehh st'
    = clients_triehh st ++ replicate m (add_end_symbol curr)
    ∧ clients_sfp st'
      = clients_sfp st ++ replicate m (truncate_or_pad curr max_len)
    ∧ (m = 0%nat
       ∨ ∃ cnt n,
           surviving keep_type row = Some (curr, cnt)
           ∧ py_int cnt = Ok n
           ∧ Z.of_nat m ≤ (if decide (cap = 0) then n else Z.min cap n)).
Proof.
  intros Hrow.
  apply process_row_Ok in Hrow
    as [[_ ->]|(curr & cnt & n & Hsurv & Hint &
                [[_ ->]|[[-> ->]|[Hcap Hloop]]])].
  - exists EmptyString, 0%nat. rewrite !app_nil_r. by repeat split; [..|left].
  - exists EmptyString, 0%nat. rewrite !app_nil_r. by repeat split; [..|left].
  - exists curr, (Z.to_nat n). simpl. do 2 (split; [done|]).
    destruct (Z_le_gt_dec n 0) as [Hn|Hn]; [left; lia|right].
    exists cnt, n. do 2 (split; [done|]). lia.
  - apply sample_loop_appends in Hloop as (m & Hm & HA & HB).
    exists curr, m. do 2 (split; [done|]).
    destruct m as [|m]; [by left|right].
    exists cnt, n. do 2 (split; [done|]). case_decide; lia.
Qed.

(** X9.  Alignment.  After every prefix of the input the two client
    lists are the two encodings of one and the same list of tokens, in
    the same order, and each of these tokens is the token of a row that
    survived the filter. *)
Theorem clients_aligned rows max_len cap keep_type seed st :
  pass max_len cap keep_type rows (initial seed) = Ok st →
  ∃ tokens : list string,
    clients_triehh st = add_end_symbol <$> tokens
    ∧ clients_sfp st = (fun t => truncate_or_pad t max_len) <$> tokens
    ∧ ∀ t, t ∈ tokens →
           ∃ row cnt, row ∈ rows ∧ surviving keep_type row = Some (t, cnt).
Proof.
  apply (pass_invariant (fun st =>
    ∃ tokens : list string,
      clients_triehh st = add_end_symbol <$> tokens
      ∧ clients_sfp st = (fun t => truncate_or_pad t max_len) <$> tokens
      ∧ ∀ t, t ∈ tokens →
             ∃ row cnt, row ∈ rows ∧ surviving keep_type row = Some (t, cnt))).
  - intros row s s' Hin (tokens & HA & HB & Htok) Hrow.
    apply process_row_appends in Hrow as (curr & m & HA' & HB' & Hm).
    exists (tokens ++ replicate m curr).
    rewrite HA', HB', HA, HB, !fmap_app, !fmap_replicate.
    do 2 (split; [done|]).
    intros t [Ht|Ht]%elem_of_app; [by apply Htok|].
    apply elem_of_replicate in Ht as [-> Hne].
    destruct Hm as [->|(cnt & n & Hsurv & _)]; [done|]. by exists row, cnt.
  - exists []. repeat split; [done..|]. by intros t Ht%elem_of_nil.
Qed.

(** X10.  Fixed width.  With [0 <= max_len] every entry of the second
    list has exactly [max_len] characters, and every entry of the first
    list ends with the terminator. *)
Theorem clients_shape rows max_len cap keep_type seed st :
  0 ≤ max_len →
  pass max_len cap keep_type rows (initial seed) = Ok st →
  Forall (fun c => String.length c = Z.to_nat max_len) (clients_sfp st)
  ∧ Forall (fun c => String.get (String.length c - 1) c = Some "$"%char)
      (clients_triehh st).
Proof.
  intros Hlen Hpass.
  cut (Forall (fun c => String.length c = Z.to_nat max_len) (clients_sfp st)
       ∧ Forall (fun c => ∃ t, c = add_end_symbol t) (clients_triehh st)).
  { intros [HB HA]. split; [done|].
    eapply Forall_impl; [exact HA|]. intros c [t ->].
    unfold add_end_symbol. rewrite length_append. simpl.
    replace (String.length t + 1 - 1)%nat
      with (String.length t + 0)%nat by lia.
    by rewrite get_append_r. }
  revert Hpass.
  apply (pass_invariant (fun st =>
    Forall (fun c => String.length c = Z.to_nat max_len) (clients_sfp st)
    ∧ Forall (fun c => ∃ t, c = add_end_symbol t) (clients_triehh st))).
  - intros row s s' _ [HB HA] Hrow.
    apply process_row_appends in Hrow as (curr & m & -> & -> & _).
    split; apply Forall_app; (split; [done|]); apply Forall_replicate.
    + by apply length_truncate_or_pad.
    + by exists curr.
  - by split.
Qed.

(** X11.  Append only.  What the pass has written after a prefix of the
    input stays where it is, in both lists, whatever rows follow. *)
Theorem clients_append_only rows1 rows2 max_len cap keep_type st st2 :
  pass max_len cap keep_type (rows1 ++ rows2) st = Ok st2 →
  ∃ st1,
    pass max_len cap keep_type rows1 st = Ok st1
    ∧ clients_triehh st1 `prefix_of` clients_triehh st2
    ∧ clients_sfp st1 `prefix_of` clients_sfp st2.
Proof.
  rewrite pass_app.
  destruct (pass max_len cap keep_type rows1 st) as [st1|e]; [simpl|done].
  intros Hpass. exists st1. split; [done|]. revert Hpass.
  apply (pass_invariant (fun s =>
    clients_triehh st1 `prefix_of` clients_triehh s
    ∧ clients_sfp st1 `prefix_of` clients_sfp s)); [|done].
  intros row s s' _ [HA HB] Hrow.
  apply process_row_appends in Hrow as (curr & m & -> & -> & _).
  split; by apply prefix_app_r.
Qed.

(** X12.  The filter.  Rows that do not survive the filter, whatever
    they hold, change nothing: the run on the input and the run on its
    surviving rows alone end the same way. *)
Theorem skipped_rows_are_irrelevant rows max_len cap keep_type seed :
  preprocess (R := R) rows max_len cap keep_type seed
  = preprocess (R := R)
      (filter (fun row => is_Some (surviving keep_type row)) rows)
      max_len cap keep_type seed.
Proof.
  unfold preprocess. f_equal. generalize (initial (R := R) seed).
  induction rows as [|row rows IH]; intros st; [done|].
  destruct (surviving keep_type row) as [p|] eqn:Hsurv.
  - rewrite filter_cons_True by (by rewrite Hsurv). simpl.
    destruct (process_row max_len cap keep_type row st); [simpl|done].
    apply IH.
  - rewrite filter_cons_False by (rewrite Hsurv; by intros [? ?]). simpl.
    rewrite process_row_eq, Hsurv. simpl. apply IH.
Qed.

End Appends.

(** ** Counting under a positive cap *)

Lemma add_end_symbol_inj (s s' : string) :
  add_end_symbol s = add_end_symbol s' → s = s'.
Proof.
  intros Heq.
  rewrite <- (substring_0_append s "$"), <- (substring_0_append s' "$").
  unfold add_end_symbol in Heq. rewrite Heq.
  f_equal. apply (f_equal String.length) in Heq.
  rewrite !length_append in Heq. simpl in Heq. lia.
Qed.

Lemma emitted_app_replicate t clients m curr :
  emitted t (clients ++ replicate m (add_end_symbol curr))
  = (emitted t clients + if decide (curr = t) then m else 0)%nat.
Proof.
  unfold emitted. rewrite filter_app, length_app. f_equal.
  induction m as [|m IH]; simpl; [by case_decide|].
  destruct (decide (curr = t)) as [->|Hne].
  - rewrite filter_cons_True by done. simpl. by rewrite IH.
  - rewrite filter_cons_False by (by intros ?%add_end_symbol_inj). done.
Qed.

Lemma clamped_count_nonneg cap keep_type rows t :
  0 ≤ clamped_count cap keep_type rows t.
Proof.
  induction rows as [|row rows IH]; simpl; [done|].
  repeat case_match; lia.
Qed.

Section Counting.
Context {R : Type} `{PRNG R}.
Implicit Types (st : state R) (row : list string).

(** The inner loop on a counter within a positive cap: it returns; the
    count of its token reaches the cap or grows by the number of
    iterations; no other entry changes; at least as many entries are
    appended as the count grows; and while the cap is not reached every
    iteration appends, without a draw. *)
Lemma sample_loop_effect curr cap max_len (n : nat) :
  0 < cap →
  ∀ st,
    0 ≤ getitem (freq st) curr ≤ cap →
    ∃ st' (m : nat),
      sample_loop n curr cap max_len st = Ok st'
      ∧ (m ≤ n)%nat
      ∧ clients_triehh st'
        = clients_triehh st ++ replicate m (add_end_symbol curr)
      ∧ clients_sfp st'
        = clients_sfp st ++ replicate m (truncate_or_pad curr max_len)
      ∧ getitem (freq st') curr
        = Z.min cap (getitem (freq st) curr + Z.of_nat n)
      ∧ (∀ t, t ≠ curr → freq st' !! t = freq st !! t)
      ∧ getitem (freq st') curr - getitem (freq st) curr ≤ Z.of_nat m
      ∧ (getitem (freq st) curr + Z.of_nat n ≤ cap →
         m = n ∧ rng st' = rng st).
Proof.
  intros Hcap. induction n as [|n IH]; intros st Hc.
  - exists st, 0%nat. simpl. rewrite !app_nil_r.
    repeat split; try done; lia.
  - simpl. rewrite reservoir_extend_within by lia.
    destruct (decide (getitem (freq st) curr < cap)) as [Hlt|Hge].
    + simpl.
      destruct (IH (State (rng st) (iadd (freq st) curr 1)
                      (clients_triehh st ++ [add_end_symbol curr])
                      (clients_sfp st ++ [truncate_or_pad curr max_len])))
        as (st' & m & Hloop & Hm & HA & HB & Hget & Hother & Hgrow & Hall).
      { simpl. rewrite getitem_iadd. lia. }
      simpl in *. rewrite getitem_iadd in *.
      exists st', (S m). split; [done|]. split; [lia|].
      split; [by rewrite HA, <- app_assoc|].
      split; [by rewrite HB, <- app_assoc|].
      split; [rewrite Hget; lia|].
      split.
      { intros t Hne. rewrite Hother by done. unfold iadd.
        by rewrite lookup_insert_ne. }
      split; [lia|]. intros Hroom.
      destruct Hall as [-> ->]; [lia|done].
    + assert (Hat : getitem (freq st) curr = cap) by lia.
      destruct (rejects cap (random (rng st)).1); simpl.
      * destruct (IH (State (random (rng st)).2 (freq st)
                        (clients_triehh st) (clients_sfp st)))
          as (st' & m & Hloop & Hm & HA & HB & Hget & Hother & Hgrow & _);
          [done|]. simpl in *.
        exists st', m. split; [done|]. split; [lia|].
        do 2 (split; [done|]). split; [rewrite Hget; lia|].
        split; [done|]. split; [lia|]. lia.
      * destruct (IH (State (random (rng st)).2 (freq st)
                        (clients_triehh st ++ [add_end_symbol curr])
                        (clients_sfp st ++ [truncate_or_pad curr max_len])))
          as (st' & m & Hloop & Hm & HA & HB & Hget & Hother & Hgrow & _);
          [done|]. simpl in *.
        exists st', (S m). split; [done|]. split; [lia|].
        split; [by rewrite HA, <- app_assoc|].
        split; [by rewrite HB, <- app_assoc|].
        split; [rewrite Hget; lia|].
        split; [done|]. split; [lia|]. lia.
Qed.

Lemma getitem_lookup (m1 m2 : gmap string Z) t :
  m1 !! t = m2 !! t → getitem m1 t = getitem m2 t.
Proof. unfold getitem. by intros ->. Qed.

(** What a pass from a state within the cap does to one token: its count
    and the number of its entries in the first list. *)
Lemma pass_token max_len cap keep_type t rows :
  0 < cap →
  ∀ st st',
    within st cap →
    pass max_len cap keep_type rows st = Ok st' →
    getitem (freq st') t
    = Z.min cap (getitem (freq st) t + clamped_count cap keep_type rows t)
    ∧ Z.of_nat (emitted t (clients_triehh st'))
      ≤ Z.of_nat (emitted t (clients_triehh st))
        + clamped_count cap keep_type rows t
    ∧ getitem (freq st') t - getitem (freq st) t
      ≤ Z.of_nat (emitted t (clients_triehh st'))
        - Z.of_nat (emitted t (clients_triehh st)).
Proof.
  intros Hcap. induction rows as [|row rows IH]; intros st st' Hst Hpass.
  - simpl in *. inversion Hpass; subst. specialize (Hst t). lia.
  - simpl in Hpass.
    destruct (process_row max_len cap keep_type row st) as [st1|e]
      eqn:Hrow; [simpl in Hpass|done].
    pose proof (process_row_within _ _ _ _ _ _ Hcap Hst Hrow) as Hst1.
    destruct (IH st1 st' Hst1 Hpass) as (Hget & Hup & Hlow).
    pose proof (clamped_count_nonneg cap keep_type rows t) as Hrest.
    pose proof (Hst t) as Ht. pose proof (Hst1 t) as Ht1.
    cut (getitem (freq st1) t
         = Z.min cap (getitem (freq st) t
                      + clamped_count cap keep_type [row] t)
         ∧ Z.of_nat (emitted t (clients_triehh st1))
           ≤ Z.of_nat (emitted t (clients_triehh st))
             + clamped_count cap keep_type [row] t
         ∧ getitem (freq st1) t - getitem (freq st) t
           ≤ Z.of_nat (emitted t (clients_triehh st1))
             - Z.of_nat (emitted t (clients_triehh st))).
    { cbn [clamped_count]. intros (Hget1 & Hup1 & Hlow1).
      pose proof (clamped_count_nonneg cap keep_type [row] t) as Hone.
      cbn [clamped_count] in Hone. rewrite Hget. lia. }
    clear IH Hpass Hget Hup Hlow Hrest st'. cbn [clamped_count].
    apply process_row_Ok in Hrow
      as [[Hsurv ->]|(curr & cnt & n & Hsurv & Hint &
                      [[? _]|[[? _]|[_ Hloop]]])];
      rewrite Hsurv; try lia.
    rewrite Hint.
    destruct (sample_loop_effect curr cap max_len
                (Z.to_nat (Z.min cap n)) Hcap st (Hst curr))
      as (st1' & m & Hloop' & Hm & HA & _ & Hgetc & Hother & Hgrow & _).
    rewrite Hloop in Hloop'. inversion Hloop'; subst st1'.
    rewrite HA, emitted_app_replicate.
    destruct (decide (curr = t)) as [->|Hne].
    + rewrite Hgetc. lia.
    + rewrite (getitem_lookup _ _ t (Hother t ltac:(congruence))). lia.
Qed.

(** X13.  Under a positive cap the counter does not depend on the
    draws: the count of a token is the number of occurrences its rows
    ask for, each row clamped to the cap, or the cap if that is less. *)
Theorem counter_closed_form rows max_len cap keep_type seed st t :
  0 < cap →
  pass max_len cap keep_type rows (initial seed) = Ok st →
  getitem (freq st) t = Z.min cap (clamped_count cap keep_type rows t).
Proof.
  intros Hcap Hpass.
  destruct (pass_token max_len cap keep_type t rows Hcap _ _
              (initial_within seed cap Hcap) Hpass) as (Hget & _).
  simpl in Hget. by rewrite getitem_empty in Hget.
Qed.

(** X14.  Under a positive cap the number of entries of a token in the
    first list lies between its count and the number of occurrences its
    clamped rows ask for: a token whose rows ask for no more than the cap
    gets every one of them, whatever the seed. *)
Theorem emitted_between rows max_len cap keep_type seed st t :
  0 < cap →
  pass max_len cap keep_type rows (initial seed) = Ok st →
  getitem (freq st) t ≤ Z.of_nat (emitted t (clients_triehh st))
  ∧ Z.of_nat (emitted t (clients_triehh st))
    ≤ clamped_count cap keep_type rows t
  ∧ (clamped_count cap keep_type rows t ≤ cap →
     Z.of_nat (emitted t (clients_triehh st))
     = clamped_count cap keep_type rows t).
Proof.
  intros Hcap Hpass.
  destruct (pass_token max_len cap keep_type t rows Hcap _ _
              (initial_within seed cap Hcap) Hpass) as (Hget & Hup & Hlow).
  simpl in *. rewrite getitem_empty in *.
  change (emitted t []) with 0%nat in *.
  repeat split; lia.
Qed.

End Counting.

(** ** When the table cannot fail *)

Lemma rel_freq_returns (counter : gmap string Z) total :
  (∀ t c, counter !! t = Some c → ∃ q, float_div c total = Ok q) →
  ∃ table, rel_freq counter total = Ok table.
Proof.
  intros Hdiv. pose proof (rel_freq_spec counter total) as Hspec.
  destruct (rel_freq counter total) as [table|e]; [by exists table|].
  destruct Hspec as (t & c & Ht & Hraise).
  destruct (Hdiv t c Ht) as [q Hq]. congruence.
Qed.

Section Outcomes.
Context {R : Type} `{PRNG R}.
Implicit Types (st : state R) (row : list string).

Lemma pass_keys_positive rows max_len cap keep_type seed st :
  0 < cap →
  pass max_len cap keep_type rows (initial seed) = Ok st →
  keys_positive st.
Proof.
  intros Hcap Hpass.
  cut (within st cap ∧ keys_positive st); [by intros [_ ?]|].
  revert Hpass.
  apply (pass_invariant (fun s => within s cap ∧ keys_positive s)).
  - intros row s s' _ [Hw Hk] Hrow.
    split; [by eapply process_row_within|].
    apply process_row_Ok in Hrow
      as [[_ ->]|(curr & cnt & n & _ & _ &
                  [[_ ->]|[[? _]|[_ Hloop]]])]; try done; [lia|].
    cut (within s' cap ∧ keys_positive s'); [by intros [_ ?]|].
    revert Hloop.
    apply (sample_loop_invariant (fun s => within s cap ∧ keys_positive s));
      [|done].
    clear - Hcap. intros s accepted freq' rng' [Hw Hk] Hcall.
    pose proof Hcall as Hcall0.
    rewrite reservoir_extend_within in Hcall by (done || apply Hw).
    assert (Hstep : freq' = freq s ∨ freq' = iadd (freq s) curr 1).
    { repeat case_match; inversion Hcall; subst; auto. }
    assert (Hk' : ∀ t c, freq' !! t = Some c → 1 ≤ c).
    { destruct Hstep as [->| ->]; [done|]. intros t c. unfold iadd.
      destruct (decide (curr = t)) as [->|Hne].
      - rewrite lookup_insert_eq. intros [= <-]. destruct (Hw t). lia.
      - rewrite lookup_insert_ne by done. apply Hk. }
    assert (Hw' : ∀ t, 0 ≤ getitem freq' t ≤ cap).
    { apply reservoir_extend_counter in Hcall0 as (Hle & Hge & _); [|done].
      intros t. destruct (Hw t). split; auto. }
    by destruct accepted.
  - split; [by apply initial_within|]. intros t c. simpl.
    by rewrite lookup_empty.
Qed.

(** X16.  Under a positive cap, a run whose pass over the rows
    completes also builds its table: no division fails, neither by zero
    nor by overflow, because every token the counter holds has a count
    between one and the number of clients. *)
Theorem positive_cap_table rows max_len cap keep_type seed st :
  0 < cap →
  pass max_len cap keep_type rows (initial seed) = Ok st →
  (∀ t c, freq st !! t = Some c →
          1 ≤ c ≤ Z.of_nat (length (clients_triehh st)))
  ∧ ∃ table,
      rel_freq (freq st) (Z.of_nat (length (clients_triehh st))) = Ok table
      ∧ preprocess (R := R) rows max_len cap keep_type seed
        = Ok (clients_triehh st, clients_sfp st, table).
Proof.
  intros Hcap Hpass.
  assert (Hbound : ∀ t c, freq st !! t = Some c →
                          1 ≤ c ≤ Z.of_nat (length (clients_triehh st))).
  { intros t c Ht.
    pose proof (pass_keys_positive _ _ _ _ _ _ Hcap Hpass t c Ht) as Hc.
    pose proof (pass_within _ _ _ _ _ _ Hcap Hpass) as Hw.
    destruct (pass_aligned _ _ _ _ _ _ Hpass) as [_ Hsum].
    pose proof (value_le_sum (freq st) t c (fun t' => proj1 (Hw t')) Ht).
    lia. }
  split; [done|].
  destruct (rel_freq_returns (freq st)
              (Z.of_nat (length (clients_triehh st)))) as [table Htable].
  { intros t c Ht. specialize (Hbound t c Ht).
    destruct (float_div_error c (Z.of_nat (length (clients_triehh st))))
      as (q & Hq & _); [lia|lia|]. by exists q. }
  exists table. split; [done|]. unfold preprocess. rewrite Hpass. simpl.
  by rewrite Htable.
Qed.

(** X17.  With the cap disabled no draw is made, and the two lists hold
    the encodings of the tokens of the surviving rows, each as many times
    as its count says, in the order of the rows: the outputs do not
    depend on the seed. *)
Theorem uncapped_expansion rows max_len keep_type st st' :
  pass max_len 0 keep_type rows st = Ok st' →
  rng st' = rng st
  ∧ clients_triehh st'
    = clients_triehh st
      ++ (add_end_symbol <$> (rows ≫= row_tokens keep_type))
  ∧ clients_sfp st'
    = clients_sfp st
      ++ ((fun t => truncate_or_pad t max_len)
            <$> (rows ≫= row_tokens keep_type)).
Proof.
  revert st. induction rows as [|row rows IH]; intros st Hpass.
  - simpl in *. inversion Hpass; subst. by rewrite !app_nil_r.
  - simpl in Hpass.
    destruct (process_row max_len 0 keep_type row st) as [st1|e]
      eqn:Hrow; [simpl in Hpass|done].
    destruct (IH st1 Hpass) as (Hrng & HA & HB).
    rewrite Hrng, HA, HB. rewrite bind_cons, !fmap_app, !app_assoc.
    cut (rng st1 = rng st
         ∧ clients_triehh st1
           = clients_triehh st
             ++ (add_end_symbol <$> row_tokens keep_type row)
         ∧ clients_sfp st1
           = clients_sfp st
             ++ ((fun t => truncate_or_pad t max_len)
                   <$> row_tokens keep_type row)).
    { by intros (-> & -> & ->). }
    unfold row_tokens.
    apply process_row_Ok in Hrow
      as [[Hsurv ->]|(curr & cnt & n & Hsurv & Hint &
                      [[? _]|[[_ ->]|[? _]]])];
      rewrite Hsurv; try lia.
    + by rewrite !app_nil_r.
    + rewrite Hint. simpl. by rewrite !fmap_replicate.
Qed.

End Outcomes.

(** ** The path of the dump *)

Lemma substring_append_r (x y : string) (n m : nat) :
  substring (String.length x + n) m (x +:+ y) = substring n m y.
Proof. induction x as [|c x IH]; [done|]. rewrite append_cons. apply IH. Qed.

Lemma append_assoc (x y z : string) : (x +:+ y) +:+ z = x +:+ y +:+ z.
Proof.
  induction x as [|c x IH]; [done|]. rewrite !append_cons. by rewrite IH.
Qed.

Lemma endswith_append (x y suffix : string) :
  endswith y suffix = true → endswith (x +:+ y) suffix = true.
Proof.
  unfold endswith. intros [Hlen Heq]%andb_true_iff.
  apply Nat.leb_le in Hlen. apply andb_true_iff. split.
  - apply Nat.leb_le. rewrite length_append. lia.
  - rewrite length_append.
    replace (String.length x + String.length y - String.length suffix)%nat
      with (String.length x + (String.length y - String.length suffix))%nat
      by lia.
    by rewrite substring_append_r.
Qed.

(** X18.  Without [--path] (or with an empty one) the command line
    always settles on a path that [open_any] opens with [gzip], whatever
    the language and the month; for a month that is not empty and has no
    slash at either end the path is
    [clickstream/<month>/clickstream-<lang>wiki-<month>.tsv.gz]. *)
Theorem default_dump_path (path : option string) (lang month : string) :
  truthy path = false →
  open_any (tsv_path path lang month) = gzip_open
  ∧ (month ≠ EmptyString → String.prefix "/" month = false →
     endswith month "/" = false →
     tsv_path path lang month
     = "clickstream/" +:+ month +:+ "/clickstream-" +:+ lang +:+ "wiki-"
         +:+ month +:+ ".tsv.gz").
Proof.
  intros Hpath. unfold tsv_path. rewrite Hpath. unfold os_path_join. simpl.
  set (fn := "clickstream-" +:+ lang +:+ "wiki-" +:+ month +:+ ".tsv.gz").
  assert (Hfn : String.prefix "/" fn = false) by done.
  assert (Hgz : endswith fn ".gz" = true).
  { unfold fn. do 4 apply endswith_append. done. }
  split.
  - unfold open_any, join_step at 1. rewrite Hfn.
    destruct (_ || _).
    + by rewrite endswith_append.
    + by rewrite !endswith_append.
  - intros Hne Hpre Hend. unfold join_step. rewrite Hpre, Hfn. simpl.
    assert (Hmid : endswith ("clickstream/" +:+ month) "/" = false).
    { unfold endswith in *. rewrite length_append.
      destruct month as [|c month]; [done|].
      change (String.length "clickstream/") with 12%nat.
      change (String.length "/") with 1%nat in *.
      replace (12 + String.length (String c month) - 1)%nat
        with (String.length "clickstream/"
              + (String.length (String c month) - 1))%nat
        by (simpl; lia).
      rewrite substring_append_r. simpl in *. done. }
    change ("clickstream" +:+ "/" +:+ month) with ("clickstream/" +:+ month).
    rewrite Hmid. unfold fn.
    change ("clickstream/" +:+ month +:+ "/clickstream-" +:+ lang +:+ "wiki-"
              +:+ month +:+ ".tsv.gz")
      with ("clickstream/" +:+ (month +:+ ("/" +:+
              ("clickstream-" +:+ lang +:+ "wiki-" +:+ month +:+ ".tsv.gz")))).
    generalize ("/" +:+ "clickstream-" +:+ lang +:+ "wiki-" +:+ month
                  +:+ ".tsv.gz").
    intros rest. apply append_assoc.
Qed.

Lemma default_dump_path_witness :
  open_any (tsv_path None "en" "2025-03") = gzip_open
  ∧ tsv_path None "en" "2025-03"
    = "clickstream/2025-03/clickstream-enwiki-2025-03.tsv.gz"%string.
Proof.
  destruct (default_dump_path None "en" "2025-03" eq_refl) as [Hopen Hpath].
  split; [exact Hopen|]. by apply Hpath.
Defined.

(** ** Runs without a draw *)

Section NoDraw.
Context {R : Type} `{PRNG R}.
Implicit Types (st : state R) (row : list string).

Lemma pass_without_draw max_len cap keep_type rows :
  0 < cap →
  ∀ st st',
    within st cap →
    (∀ t, getitem (freq st) t + clamped_count cap keep_type rows t ≤ cap) →
    pass max_len cap keep_type rows st = Ok st' →
    rng st' = rng st.
Proof.
  intros Hcap. induction rows as [|row rows IH]; intros st st' Hst Hroom Hpass.
  - simpl in Hpass. by inversion Hpass.
  - simpl in Hpass.
    destruct (process_row max_len cap keep_type row st) as [st1|e]
      eqn:Hrow; [simpl in Hpass|done].
    pose proof (process_row_within _ _ _ _ _ _ Hcap Hst Hrow) as Hst1.
    cut (rng st1 = rng st
         ∧ ∀ t, getitem (freq st1) t + clamped_count cap keep_type rows t
                ≤ cap).
    { intros [<- Hroom1]. by apply IH. }
    clear IH Hpass st'. cbn [clamped_count] in Hroom.
    apply process_row_Ok in Hrow
      as [[Hsurv ->]|(curr & cnt & n & Hsurv & Hint &
                      [[? _]|[[? _]|[_ Hloop]]])];
      rewrite Hsurv in Hroom; try lia.
    { split; [done|]. intros t. specialize (Hroom t). lia. }
    rewrite Hint in Hroom.
    destruct (sample_loop_effect curr cap max_len
                (Z.to_nat (Z.min cap n)) Hcap st (Hst curr))
      as (st1' & m & Hloop' & _ & _ & _ & Hgetc & Hother & _ & Hall).
    rewrite Hloop in Hloop'. inversion Hloop'; subst st1'.
    pose proof (Hroom curr) as Hcurr. rewrite decide_True in Hcurr by done.
    pose proof (clamped_count_nonneg cap keep_type rows curr).
    destruct Hall as [_ Hrng]; [lia|]. split; [done|].
    intros t. specialize (Hroom t). destruct (decide (curr = t)) as [<-|Hne].
    + rewrite Hgetc. lia.
    + rewrite (getitem_lookup _ _ t (Hother t ltac:(congruence))). lia.
Qed.

(** X19.  Under a positive cap, a run in which no token is asked for
    more often than the cap, its rows clamped, makes no draw: the
    generator is left as the seed built it. *)
Theorem no_draw_below_cap rows max_len cap keep_type seed st :
  0 < cap →
  (∀ t, clamped_count cap keep_type rows t ≤ cap) →
  pass max_len cap keep_type rows (initial seed) = Ok st →
  rng st = Random seed.
Proof.
  intros Hcap Hroom Hpass.
  apply (pass_without_draw max_len cap keep_type rows Hcap (initial seed) st);
    [by apply initial_within| |done].
  intros t. simpl. rewrite getitem_empty. specialize (Hroom t). lia.
Qed.

End NoDraw.

(** ** The further properties on runs with the generator of CPython *)

Lemma clients_aligned_witness :
  ∃ tokens : list string,
    clients_triehh A3_B1_uncapped = add_end_symbol <$> tokens
    ∧ clients_sfp A3_B1_uncapped
      = (fun t => truncate_or_pad t 16) <$> tokens
    ∧ ∀ t, t ∈ tokens →
           ∃ row cnt, row ∈ A3_B1
                      ∧ surviving (Some "link"%string) row = Some (t, cnt).
Proof.
  apply (clients_aligned (R := MT19937.mt_state) A3_B1 16 0
           (Some "link"%string) 0).
  vm_compute. reflexivity.
Defined.

Lemma clients_shape_witness :
  Forall (fun c => String.length c = Z.to_nat 16) (clients_sfp A3_B1_uncapped)
  ∧ Forall (fun c => String.get (String.length c - 1) c = Some "$"%char)
      (clients_triehh A3_B1_uncapped).
Proof.
  apply (clients_shape (R := MT19937.mt_state) A3_B1 16 0
           (Some "link"%string) 0); [lia|].
  vm_compute. reflexivity.
Defined.

Lemma clients_append_only_witness :
  ∃ st1 : state MT19937.mt_state,
    pass 16 0 (Some "link"%string) [["X"; "A"; "link"; "3"]]%string
      (initial 0) = Ok st1
    ∧ clients_triehh st1 `prefix_of` clients_triehh A3_B1_uncapped
    ∧ clients_sfp st1 `prefix_of` clients_sfp A3_B1_uncapped.
Proof.
  apply (clients_append_only (R := MT19937.mt_state)
           [["X"; "A"; "link"; "3"]]%string [["X"; "B"; "link"; "1"]]%string).
  vm_compute. reflexivity.
Defined.

Lemma counter_closed_form_witness :
  getitem (freq twice_A_capped) "A"
  = Z.min 1 (clamped_count 1 (Some "link"%string) twice_A "A").
Proof.
  apply (counter_closed_form (R := MT19937.mt_state) twice_A 16 1
           (Some "link"%string) 0); [lia|].
  vm_compute. reflexivity.
Defined.

Lemma emitted_between_witness :
  getitem (freq twice_A_capped) "A"
  ≤ Z.of_nat (emitted "A" (clients_triehh twice_A_capped))
  ∧ Z.of_nat (emitted "A" (clients_triehh twice_A_capped))
    ≤ clamped_count 1 (Some "link"%string) twice_A "A".
Proof.
  destruct (emitted_between (R := MT19937.mt_state) twice_A 16 1
              (Some "link"%string) 0 twice_A_capped "A") as (Hlow & Hup & _).
  - lia.
  - vm_compute. reflexivity.
  - split; [exact Hlow|exact Hup].
Defined.

Lemma positive_cap_table_witness :
  (∀ t c, freq twice_A_capped !! t = Some c →
          1 ≤ c ≤ Z.of_nat (length (clients_triehh twice_A_capped)))
  ∧ ∃ table,
      rel_freq (freq twice_A_capped)
        (Z.of_nat (length (clients_triehh twice_A_capped))) = Ok table
      ∧ preprocess (R := MT19937.mt_state) twice_A 16 1
          (Some "link"%string) 0
        = Ok (clients_triehh twice_A_capped, clients_sfp twice_A_capped,
              table).
Proof.
  apply (positive_cap_table (R := MT19937.mt_state) twice_A 16 1
           (Some "link"%string) 0); [lia|].
  vm_compute. reflexivity.
Defined.

Lemma uncapped_expansion_witness :
  rng A3_B1_uncapped = rng (initial (R := MT19937.mt_state) 0)
  ∧ clients_triehh A3_B1_uncapped
    = clients_triehh (initial (R := MT19937.mt_state) 0)
      ++ (add_end_symbol <$> (A3_B1 ≫= row_tokens (Some "link"%string)))
  ∧ clients_sfp A3_B1_uncapped
    = clients_sfp (initial (R := MT19937.mt_state) 0)
      ++ ((fun t => truncate_or_pad t 16)
            <$> (A3_B1 ≫= row_tokens (Some "link"%string))).
Proof.
  apply (uncapped_expansion (R := MT19937.mt_state) A3_B1 16
           (Some "link"%string)).
  vm_compute. reflexivity.
Defined.

Lemma no_draw_below_cap_witness :
  rng A3_B1_uncapped = (Random 0 : MT19937.mt_state).
Proof.
  apply (no_draw_below_cap (R := MT19937.mt_state) A3_B1 16 5000
           (Some "link"%string) 0).
  - lia.
  - intros t. unfold A3_B1. cbn [clamped_count].
    change (surviving (Some "link"%string) ["X"; "A"; "link"; "3"]%string)
      with (Some ("A", "3")%string).
    change (surviving (Some "link"%string) ["X"; "B"; "link"; "1"]%string)
      with (Some ("B", "1")%string).
    cbv beta iota.
    change (py_int "3") with (Ok 3 : result Z).
    change (py_int "1") with (Ok 1 : result Z).
    cbv beta iota. repeat case_decide; lia.
  - vm_compute. reflexivity.
Defined.
